(** * SafeCipher: Caesar and Vigenere transforms over C strings

    A shallow embedding of [crypto.c] (the four transforms) and of the
    command-line layer ([cli], [handle_caesar], [handle_vigenere] and the
    two validators), with the properties of the design document proved or
    refuted on it.

    Conventions of the embedding.
    - A [char] or [int] value is a [Z].  Whether plain [char] is signed
      is implementation-defined, so the transforms are parameterised by
      [char_signed]; [int] is 32 bits wide and [long] 64 bits (LP64).
    - A memory object reachable from a [char *] is the [list Z] of its
      bytes from the pointer onwards; [&s[i]] is [drop i s].  A string
      ends at its first NUL byte, or at the end of the object.
    - Undefined behaviour (division by zero, signed overflow, a write
      past the end of the destination buffer) is the result [None].
    - Source and destination do not overlap; a transform returns the
      destination buffer as it has left it.
    - [size_t] values are [nat]. *)

From Stdlib Require Import ZArith List Lia Bool String Ascii.
From stdpp Require Import base numbers option list.

Open Scope Z_scope.

(** ** C integer arithmetic *)

Definition INT_MIN : Z := -2147483648.
Definition INT_MAX : Z := 2147483647.
Definition LONG_MIN : Z := -9223372036854775808.
Definition LONG_MAX : Z := 9223372036854775807.

Definition is_int (z : Z) : Prop := INT_MIN <= z <= INT_MAX.

(** [a % b] on [int]: truncating remainder; undefined when [b] is zero or
    the quotient [INT_MIN / -1] overflows. *)
Definition int_rem (a b : Z) : option Z :=
  if (b =? 0) || ((a =? INT_MIN) && (b =? -1)) then None
  else Some (Z.rem a b).

(** Unary minus on [int]: undefined on [INT_MIN]. *)
Definition int_neg (a : Z) : option Z :=
  if a =? INT_MIN then None else Some (- a).

(** [a % b] on [size_t]. *)
Definition size_rem (a b : nat) : option nat :=
  if (b =? 0)%nat then None else Some (a mod b)%nat.

(** ** Strings and buffers *)

Fixpoint strlen (s : list Z) : nat :=
  match s with
  | [] => O
  | c :: s' => if c =? 0 then O else S (strlen s')
  end.

(** The characters of the string that starts at [s], terminator excluded. *)
Definition cstring (s : list Z) : list Z := take (strlen s) s.

(** [buf[i] = c], undefined outside the buffer. *)
Definition store (buf : list Z) (i : nat) (c : Z) : option (list Z) :=
  if decide (i < length buf)%nat then Some (<[i:=c]> buf) else None.

(** The character codes of a literal. *)
Definition char_codes (s : string) : list Z :=
  map (fun a => Z.of_N (N_of_ascii a)) (list_ascii_of_string s).

Definition in_range (range_low range_high c : Z) : bool :=
  (range_low <=? c) && (c <=? range_high).

(** ** The transforms of crypto.c *)

Section Transforms.

(** Signedness of plain [char]. *)
Variable char_signed : bool.

Definition CHAR_MIN : Z := if char_signed then -128 else 0.
Definition CHAR_MAX : Z := if char_signed then 127 else 255.
Definition is_char (c : Z) : Prop := CHAR_MIN <= c <= CHAR_MAX.

(** The conversion [(char) z] of an [int]. *)
Definition to_char (z : Z) : Z := (z - CHAR_MIN) mod 256 + CHAR_MIN.

(** The loop of [caesar_encrypt]: [n] iterations are left, the next
    one is at position [i]; [key] is already normalised. *)
Fixpoint caesar_encrypt_loop (range_low range_high key range_size : Z)
    (plain_text : list Z) (n i : nat) (cipher_text : list Z)
    : option (list Z) :=
  match n with
  | O => Some cipher_text
  | S n' =>
      let c := nth i plain_text 0 in
      c ← (if in_range range_low range_high c
            then r ← int_rem (c - range_low + key) range_size;
                 Some (to_char (range_low + Z.abs r))
            else Some c);
      cipher_text ← store cipher_text i c;
      caesar_encrypt_loop range_low range_high key range_size
        plain_text n' (S i) cipher_text
  end.

Definition caesar_encrypt (range_low range_high key : Z)
    (plain_text cipher_text : list Z) : option (list Z) :=
  let plain_text_len := strlen plain_text in
  let range_size := range_high - range_low + 1 in
  k ← int_rem key range_size;
  key ← int_rem (k + range_size) range_size;
  cipher_text ← caesar_encrypt_loop range_low range_high key range_size
                   plain_text plain_text_len O cipher_text;
  store cipher_text plain_text_len 0.

Definition caesar_decrypt (range_low range_high key : Z)
    (cipher_text plain_text : list Z) : option (list Z) :=
  key ← int_neg key;
  caesar_encrypt range_low range_high key cipher_text plain_text.

(** One iteration of the loop of [vigenere_encrypt] ([caesar] is
    [caesar_encrypt]) and of [vigenere_decrypt] ([caesar] is
    [caesar_decrypt]); the two loops differ in nothing else.  The
    Caesar transform is called on the suffixes [&plain_text[i]] and
    [&cipher_text[i]], so it rewrites the destination from [i] to the
    terminator.  The result is the new key index and the buffer. *)
Definition vigenere_step
    (caesar : Z -> Z -> Z -> list Z -> list Z -> option (list Z))
    (range_low range_high : Z) (key : list Z) (key_length : nat)
    (plain_text : list Z) (i index : nat) (cipher_text : list Z)
    : option (nat * list Z) :=
  let c := nth i plain_text 0 in
  if in_range range_low range_high c then
    let caesar_key := nth index key 0 - range_low in
    suffix ← caesar range_low range_high caesar_key
               (drop i plain_text) (drop i cipher_text);
    index ← size_rem (index + 1) key_length;
    Some (index, take i cipher_text ++ suffix)
  else
    cipher_text ← store cipher_text i c;
    Some (index, cipher_text).

Fixpoint vigenere_loop
    (caesar : Z -> Z -> Z -> list Z -> list Z -> option (list Z))
    (range_low range_high : Z) (key : list Z) (key_length : nat)
    (plain_text : list Z) (n i index : nat) (cipher_text : list Z)
    : option (nat * list Z) :=
  match n with
  | O => Some (index, cipher_text)
  | S n' =>
      '(index, cipher_text) ← vigenere_step caesar range_low range_high
                                key key_length plain_text i index cipher_text;
      vigenere_loop caesar range_low range_high key key_length
        plain_text n' (S i) index cipher_text
  end.

Definition vigenere
    (caesar : Z -> Z -> Z -> list Z -> list Z -> option (list Z))
    (range_low range_high : Z) (key plain_text cipher_text : list Z)
    : option (list Z) :=
  let plain_text_len := strlen plain_text in
  let key_length := strlen key in
  '(_, cipher_text) ← vigenere_loop caesar range_low range_high key
                        key_length plain_text plain_text_len O O cipher_text;
  store cipher_text plain_text_len 0.

Definition vigenere_encrypt (range_low range_high : Z)
    (key plain_text cipher_text : list Z) : option (list Z) :=
  vigenere caesar_encrypt range_low range_high key plain_text cipher_text.

Definition vigenere_decrypt (range_low range_high : Z)
    (key cipher_text plain_text : list Z) : option (list Z) :=
  vigenere caesar_decrypt range_low range_high key cipher_text plain_text.

End Transforms.

(** ** The C library functions used by the command-line layer

    ISO C in the "C" locale; each models the library function of the same
    name, as far as the program observes it. *)

Definition isspace (c : Z) : bool := (c =? 32) || ((9 <=? c) && (c <=? 13)).
Definition isdigit (c : Z) : bool := (48 <=? c) && (c <=? 57).

(** [strcmp(a, b) == 0]. *)
Definition strcmp_zero (a b : list Z) : bool :=
  bool_decide (cstring a = cstring b).

Fixpoint skip_spaces (s : list Z) : list Z :=
  match s with
  | [] => []
  | c :: s' => if isspace (c mod 256) then skip_spaces s' else s
  end.

Fixpoint scan_digits (acc : Z) (s : list Z) : Z * list Z :=
  match s with
  | [] => (acc, [])
  | c :: s' => if isdigit c then scan_digits (10 * acc + (c - 48)) s' else (acc, s)
  end.

(** [strtol(nptr, &endptr, 10)]: the value and the string at [endptr].
    Leading white space is skipped, one sign is optional; without a digit
    nothing is converted and [endptr] is [nptr]; a value that does not
    fit a [long] is clamped to [LONG_MIN] or [LONG_MAX]. *)
Definition strtol (nptr : list Z) : Z * list Z :=
  let s := skip_spaces (cstring nptr) in
  let '(negative, body) :=
    match s with
    | c :: s' => if c =? 45 then (true, s')
                 else if c =? 43 then (false, s') else (false, s)
    | [] => (false, s)
    end in
  if isdigit (nth O body 0) then
    let '(magnitude, endptr) := scan_digits 0 body in
    let value := if negative then - magnitude else magnitude in
    (Z.max LONG_MIN (Z.min LONG_MAX value), endptr)
  else (0, cstring nptr).

(** ** The command-line layer *)

Definition RANGE_LOW : Z := 65.
Definition RANGE_HIGH : Z := 90.

Inductive transform : Set :=
| CaesarEncrypt | CaesarDecrypt | VigenereEncrypt | VigenereDecrypt.

(** What a run does that is visible from outside: the lines written to
    the two streams, and the calls of the transforms with their range,
    key (an [int] or a string) and input text. *)
Inductive event : Type :=
| Stderr (line : list Z)
| Stdout (line : list Z)
| Call (f : transform) (range_low range_high : Z) (key : Z + list Z)
       (text : list Z).

Definition is_diagnostic (e : event) : bool :=
  match e with Stderr _ => true | _ => false end.

Fixpoint contains_whitespace (str : list Z) : bool :=
  match str with
  | [] => false
  | c :: str' =>
      if c =? 0 then false
      else if isspace (c mod 256) then true
      else contains_whitespace str'
  end.

Fixpoint validate_key_characters (str : list Z) : bool :=
  match str with
  | [] => true
  | c :: str' =>
      if c =? 0 then true
      else if (c <? RANGE_LOW) || (RANGE_HIGH <? c) then false
      else validate_key_characters str'
  end.

Definition print_usage (program_name : list Z) : list event :=
  [ Stderr (char_codes "Usage: " ++ cstring program_name
            ++ char_codes " <operation> <key> <message>" ++ [10]);
    Stderr (char_codes "Permitted operations: vigenere-encrypt, vigenere-decrypt, caesar-encrypt, caesar-decrypt"
            ++ [10]) ].

Section CommandLine.

Variable char_signed : bool.

Definition handle_vigenere (operation key_str message result_text : list Z)
    : option (Z * list event) :=
  if negb (validate_key_characters key_str) then
    Some (1, [Stderr (char_codes "Key characters must be in the range 'A'->'Z'" ++ [10])])
  else if strcmp_zero operation (char_codes "vigenere-encrypt") then
    result_text ← vigenere_encrypt char_signed RANGE_LOW RANGE_HIGH
                    key_str message result_text;
    Some (0, [Call VigenereEncrypt RANGE_LOW RANGE_HIGH (inr key_str) message;
              Stdout (cstring result_text ++ [10])])
  else
    result_text ← vigenere_decrypt char_signed RANGE_LOW RANGE_HIGH
                    key_str message result_text;
    Some (0, [Call VigenereDecrypt RANGE_LOW RANGE_HIGH (inr key_str) message;
              Stdout (cstring result_text ++ [10])]).

Definition handle_caesar (operation key_str message result_text : list Z)
    : option (Z * list event) :=
  let '(key_int, endptr) := strtol key_str in
  if negb (nth O endptr 0 =? 0) || contains_whitespace key_str
     || (key_int <? INT_MIN) || (INT_MAX <? key_int) then
    Some (1, [Stderr (char_codes "Please enter a valid integer key" ++ [10])])
  else
    let range_size := RANGE_HIGH - RANGE_LOW + 1 in
    let key_int := Z.rem (Z.rem key_int range_size + range_size) range_size in
    if strcmp_zero operation (char_codes "caesar-encrypt") then
      result_text ← caesar_encrypt char_signed RANGE_LOW RANGE_HIGH
                      key_int message result_text;
      Some (0, [Call CaesarEncrypt RANGE_LOW RANGE_HIGH (inl key_int) message;
                Stdout (cstring result_text ++ [10])])
    else
      result_text ← caesar_decrypt char_signed RANGE_LOW RANGE_HIGH
                      key_int message result_text;
      Some (0, [Call CaesarDecrypt RANGE_LOW RANGE_HIGH (inl key_int) message;
                Stdout (cstring result_text ++ [10])]).

(** The result is the exit status and the events of the run. *)
Definition cli (argc : Z) (argv : list (list Z)) : option (Z * list event) :=
  if negb (argc =? 4) then Some (1, print_usage (nth 0%nat argv []))
  else
    let operation := nth 1%nat argv [] in
    let key_str := nth 2%nat argv [] in
    let message := nth 3%nat argv [] in
    if (nth O key_str 0 =? 0) || (nth O message 0 =? 0) then
      Some (1, print_usage (nth 0%nat argv []))
    else if (1024 <=? strlen message)%nat then
      Some (1, [Stderr (char_codes "Error: Message length exceeds maximum allowed size of 1023 characters" ++ [10])])
    else
      let result_text := replicate 1024 0 in
      if strcmp_zero operation (char_codes "vigenere-encrypt")
         || strcmp_zero operation (char_codes "vigenere-decrypt") then
        handle_vigenere operation key_str message result_text
      else if strcmp_zero operation (char_codes "caesar-encrypt")
              || strcmp_zero operation (char_codes "caesar-decrypt") then
        handle_caesar operation key_str message result_text
      else
        Some (1, Stderr (char_codes "Invalid operation: " ++ cstring operation ++ [10])
                 :: print_usage (nth 0%nat argv [])).

End CommandLine.

(** ** The transforms as the design document words them

    These definitions follow the text of the design document, not the
    code; the theorems below compare them with the code. *)

(** Section 4.1: the shift of one symbol. *)
Definition shift_symbol (range_low range_high key c : Z) : Z :=
  if in_range range_low range_high c then
    let range_size := range_high - range_low + 1 in
    let normalized_key := ((key mod range_size) + range_size) mod range_size in
    range_low + ((c - range_low + normalized_key) mod range_size)
  else c.

Definition shift_encrypt (range_low range_high key : Z) (input : list Z)
    : list Z :=
  map (shift_symbol range_low range_high key) input.

Definition shift_decrypt (range_low range_high key : Z) (input : list Z)
    : list Z :=
  shift_encrypt range_low range_high (- key) input.

(** Section 4.2: what becomes of the symbol [c] when the cyclic index is
    [k_idx], and the index after it; [sign] is [1] to encrypt and [-1] to
    decrypt. *)
Definition poly_symbol (sign range_low range_high : Z) (keyword : list Z)
    (k_idx : nat) (c : Z) : Z :=
  if in_range range_low range_high c then
    let offset := nth k_idx keyword 0 - range_low in
    shift_symbol range_low range_high (sign * offset) c
  else c.

Definition next_index (range_low range_high : Z) (keyword_length k_idx : nat)
    (c : Z) : nat :=
  if in_range range_low range_high c
  then ((k_idx + 1) mod keyword_length)%nat
  else k_idx.

Fixpoint poly_from (sign range_low range_high : Z) (keyword : list Z)
    (k_idx : nat) (input : list Z) : list Z :=
  match input with
  | [] => []
  | c :: input' =>
      poly_symbol sign range_low range_high keyword k_idx c
        :: poly_from sign range_low range_high keyword
             (next_index range_low range_high (length keyword) k_idx c) input'
  end.

(** The cyclic index starts at 0. *)
Definition poly_encrypt (range_low range_high : Z) (keyword input : list Z)
    : list Z :=
  poly_from 1 range_low range_high keyword O input.

Definition poly_decrypt (range_low range_high : Z) (keyword input : list Z)
    : list Z :=
  poly_from (-1) range_low range_high keyword O input.

(** The value of the cyclic index after [input], started at [k_idx]. *)
Fixpoint index_after (range_low range_high : Z) (keyword_length k_idx : nat)
    (input : list Z) : nat :=
  match input with
  | [] => k_idx
  | c :: input' =>
      index_after range_low range_high keyword_length
        (next_index range_low range_high keyword_length k_idx c) input'
  end.

(** Section 4.3: a decimal integer token is an optional sign and at least
    one digit, nothing else. *)
Definition decimal_token (s : list Z) : bool :=
  match s with
  | [] => false
  | c :: d =>
      if (c =? 43) || (c =? 45)
      then negb (bool_decide (d = [])) && forallb isdigit d
      else forallb isdigit s
  end.

Definition digits_value (d : list Z) : Z :=
  fold_left (fun acc c => 10 * acc + (c - 48)) d 0.

Definition token_value (s : list Z) : Z :=
  match s with
  | [] => 0
  | c :: d =>
      if c =? 45 then - digits_value d
      else if c =? 43 then digits_value d
      else digits_value s
  end.

(** A keyword is valid when it is not empty and all its symbols are in
    the range. *)
Definition valid_keyword (range_low range_high : Z) (keyword : list Z) : Prop :=
  keyword <> [] /\ Forall (fun c => range_low <= c <= range_high) keyword.

(** Section 8, on the result of a transform run on [text]: the run
    returns, and every out-of-range symbol of the text is at its place in
    the output. *)
Definition passes_through (range_low range_high : Z) (text : list Z)
    (result : option (list Z)) : Prop :=
  exists out : list Z,
    result = Some out
    /\ forall i : nat,
         (i < strlen text)%nat ->
         in_range range_low range_high (nth i text 0) = false ->
         nth i out 0 = nth i text 0.

(** The run returns a string that is not longer than the text, and
    wherever the text has an in-range symbol the output has one too. *)
Definition stays_in_range (range_low range_high : Z) (text : list Z)
    (result : option (list Z)) : Prop :=
  exists out : list Z,
    result = Some out
    /\ (strlen out <= strlen text)%nat
    /\ forall i : nat,
         (i < strlen text)%nat ->
         in_range range_low range_high (nth i text 0) = true ->
         in_range range_low range_high (nth i out 0) = true.

(** The operation names of the command line. *)
Definition caesar_operation (encrypt : bool) : list Z :=
  char_codes (if encrypt then "caesar-encrypt" else "caesar-decrypt").

Definition vigenere_operation (encrypt : bool) : list Z :=
  char_codes (if encrypt then "vigenere-encrypt" else "vigenere-decrypt").

(** A run that is rejected: status 1, at least one line on the error
    stream, nothing on the output stream and no transform called. *)
Definition rejected (run : option (Z * list event)) : Prop :=
  exists diagnostics : list event,
    run = Some (1, diagnostics)
    /\ diagnostics <> []
    /\ forallb is_diagnostic diagnostics = true.

(** ** Further properties of the code

    The predicates below state what the source shows beyond the design
    document. *)

(** A run on [text] with the destination [buf] returns the buffer with
    its length unchanged, the terminator at the length of the text and
    every byte after it as it was. *)
Definition frames (text buf : list Z) (result : option (list Z)) : Prop :=
  exists out : list Z,
    result = Some out
    /\ length out = length buf
    /\ nth (strlen text) out 0 = 0
    /\ drop (S (strlen text)) out = drop (S (strlen text)) buf.

(** The run returns a string of the length of the text. *)
Definition keeps_length (text : list Z) (result : option (list Z)) : Prop :=
  exists out : list Z, result = Some out /\ strlen out = strlen text.

(** The run returns the string [expected]. *)
Definition returns_string (expected : list Z) (result : option (list Z))
    : Prop :=
  exists out : list Z, result = Some out /\ cstring out = expected.

(** How many symbols of [text] are in the range. *)
Definition count_in_range (range_low range_high : Z) (text : list Z) : nat :=
  length (List.filter (in_range range_low range_high) text).

(** The arguments with which [cli] succeeds. *)
Definition acceptable (argc : Z) (argv : list (list Z)) : Prop :=
  let operation := nth 1%nat argv [] in
  let key_str := nth 2%nat argv [] in
  let message := nth 3%nat argv [] in
  argc = 4
  /\ (0 < strlen message < 1024)%nat
  /\ (((exists encrypt, cstring operation = vigenere_operation encrypt)
       /\ valid_keyword RANGE_LOW RANGE_HIGH (cstring key_str))
      \/ ((exists encrypt, cstring operation = caesar_operation encrypt)
          /\ decimal_token (cstring key_str) = true
          /\ is_int (token_value (cstring key_str)))).

(** A run that succeeds on [message]: status 0, one call of a transform
    on the message, then one line on the output stream, which has the
    length of the message and ends with a newline. *)
Definition succeeded (message : list Z) (run : option (Z * list event))
    : Prop :=
  exists (f : transform) (key : Z + list Z) (line : list Z),
    run = Some (0, [Call f RANGE_LOW RANGE_HIGH key message;
                    Stdout (line ++ [10])])
    /\ length line = strlen message.

(** ** Strings *)

Lemma strlen_le_length (s : list Z) : (strlen s <= length s)%nat.
Proof.
  induction s as [|c s IH]; simpl; [lia|].
  destruct (c =? 0); simpl; lia.
Qed.

Lemma strlen_app_nul (m r : list Z) :
  Forall (fun c => c <> 0) m -> strlen (m ++ 0 :: r) = length m.
Proof.
  induction 1 as [|c m Hc _ IH]; simpl; [reflexivity|].
  destruct (Z.eqb_spec c 0); [contradiction|]. by rewrite IH.
Qed.

Lemma strlen_terminated (body rest : list Z) :
  (strlen (body ++ 0%Z :: rest) <= length body)%nat.
Proof.
  induction body as [|c body IH]; simpl; [lia|].
  destruct (c =? 0); lia.
Qed.

Lemma cstring_app_nul (m r : list Z) :
  Forall (fun c => c <> 0) m -> cstring (m ++ 0 :: r) = m.
Proof.
  intros H. unfold cstring. rewrite strlen_app_nul by done.
  apply take_app_length.
Qed.

Lemma cstring_no_nul (s : list Z) : Forall (fun c => c <> 0) (cstring s).
Proof.
  unfold cstring. induction s as [|c s IH]; simpl; [constructor|].
  destruct (Z.eqb_spec c 0); simpl; [constructor|].
  constructor; assumption.
Qed.

Lemma cstring_length (s : list Z) : length (cstring s) = strlen s.
Proof.
  unfold cstring. rewrite length_take. pose proof (strlen_le_length s). lia.
Qed.

Lemma strlen_drop (s : list Z) (i : nat) :
  (i <= strlen s)%nat -> strlen (drop i s) = (strlen s - i)%nat.
Proof.
  revert i. induction s as [|c s IH]; intros i Hi; simpl in *.
  - by destruct i.
  - destruct i as [|i]; simpl; [destruct (c =? 0); lia|].
    destruct (c =? 0); [lia|]. apply IH. lia.
Qed.

Lemma strlen_lookup (s : list Z) (i : nat) :
  (i < strlen s)%nat -> s !! i = Some (nth i s 0) /\ nth i s 0 <> 0.
Proof.
  revert i. induction s as [|c s IH]; intros i Hi; simpl in *; [lia|].
  destruct (Z.eqb_spec c 0); [lia|].
  destruct i as [|i]; simpl; [done|]. apply IH. lia.
Qed.

Lemma cstring_nth (s : list Z) (i : nat) :
  (i < strlen s)%nat -> cstring s !! i = Some (nth i s 0).
Proof.
  intros Hi. unfold cstring. rewrite lookup_take_lt by done.
  by apply strlen_lookup.
Qed.

(** ** C arithmetic of the key normalisation *)

Lemma rem_normalise (key range_size : Z) :
  0 < range_size ->
  Z.rem (Z.rem key range_size + range_size) range_size = key mod range_size.
Proof.
  intros Hpos.
  pose proof (Z.quot_rem' key range_size) as Hq.
  assert (Hb : - range_size < Z.rem key range_size < range_size).
  { pose proof (Z.rem_bound_abs key range_size). lia. }
  rewrite Z.rem_mod_nonneg by lia.
  replace (Z.rem key range_size + range_size)
    with (key + (1 - Z.quot key range_size) * range_size) by lia.
  apply Z_mod_plus_full.
Qed.

Lemma int_rem_pos (a b : Z) : 0 < b -> int_rem a b = Some (Z.rem a b).
Proof.
  intros Hb. unfold int_rem.
  destruct (Z.eqb_spec b 0); [lia|].
  destruct (Z.eqb_spec b (-1)); [lia|].
  by rewrite andb_false_r.
Qed.

Lemma spec_normalise (key range_size : Z) :
  0 < range_size ->
  ((key mod range_size) + range_size) mod range_size = key mod range_size.
Proof.
  intros Hpos.
  replace (key mod range_size + range_size)
    with (key mod range_size + 1 * range_size) by lia.
  rewrite Z_mod_plus_full. apply Z.mod_mod. lia.
Qed.

Section CaesarFacts.

Variable char_signed : bool.
Variables range_low range_high : Z.
Hypothesis low_is_char : is_char char_signed range_low.
Hypothesis high_is_char : is_char char_signed range_high.
Hypothesis range_valid : range_low < range_high.

Local Abbreviation range_size := (range_high - range_low + 1).

Lemma to_char_id (z : Z) : is_char char_signed z -> to_char char_signed z = z.
Proof.
  unfold is_char, to_char, CHAR_MIN, CHAR_MAX.
  destruct char_signed; intros Hz; rewrite Z.mod_small; lia.
Qed.

Lemma shift_symbol_in (key c : Z) :
  in_range range_low range_high c = true ->
  shift_symbol range_low range_high key c
  = range_low + (c - range_low + key mod range_size) mod range_size.
Proof.
  intros Hc. unfold shift_symbol. rewrite Hc. cbv zeta.
  rewrite spec_normalise; [reflexivity|].
  lia.
Qed.

Lemma shift_symbol_out (key c : Z) :
  in_range range_low range_high c = false ->
  shift_symbol range_low range_high key c = c.
Proof. intros Hc. unfold shift_symbol. by rewrite Hc. Qed.

Lemma shift_symbol_bounds (key c : Z) :
  in_range range_low range_high c = true ->
  range_low <= shift_symbol range_low range_high key c <= range_high.
Proof.
  intros Hc. rewrite shift_symbol_in by done.
  pose proof (Z.mod_pos_bound (c - range_low + key mod range_size) range_size).
  lia.
Qed.

(** The body of the loop of [caesar_encrypt] on one symbol. *)
Lemma caesar_body (key c : Z) :
  (if in_range range_low range_high c
   then r ← int_rem (c - range_low + key mod range_size) range_size;
        Some (to_char char_signed (range_low + Z.abs r))
   else Some c)
  = Some (shift_symbol range_low range_high key c).
Proof.
  destruct (in_range range_low range_high c) eqn:Hc.
  - assert (Hpos : 0 < range_size) by lia.
    rewrite int_rem_pos by done. simpl. f_equal.
    pose proof (Z.mod_pos_bound key range_size Hpos) as Hk.
    apply andb_true_iff in Hc as [Hlo Hhi].
    apply Z.leb_le in Hlo, Hhi.
    rewrite Z.rem_mod_nonneg by lia.
    pose proof (Z.mod_pos_bound (c - range_low + key mod range_size)
                  range_size Hpos) as Hr.
    rewrite Z.abs_eq by lia.
    rewrite shift_symbol_in
      by (unfold in_range; apply andb_true_iff; split; by apply Z.leb_le).
    apply to_char_id. unfold is_char in *. lia.
  - by rewrite shift_symbol_out.
Qed.

Lemma caesar_encrypt_loop_spec (key : Z) (plain_text : list Z) :
  forall (n i : nat) (cipher_text : list Z),
    (i + n = strlen plain_text)%nat ->
    (i + n <= length cipher_text)%nat ->
    caesar_encrypt_loop char_signed range_low range_high
      (key mod range_size) range_size plain_text n i cipher_text
    = Some (take i cipher_text
            ++ map (shift_symbol range_low range_high key)
                   (take n (drop i plain_text))
            ++ drop (i + n) cipher_text).
Proof.
  induction n as [|n IH]; intros i cipher_text Hlen Hbuf.
  - simpl. rewrite Nat.add_0_r. by rewrite take_drop.
  - cbn [caesar_encrypt_loop]. cbv zeta.
    rewrite caesar_body. cbn [mbind option_bind].
    unfold store. rewrite decide_True by lia. cbn [mbind option_bind].
    rewrite IH by (rewrite ?length_insert; lia).
    destruct (strlen_lookup plain_text i) as [Hi _]; [lia|].
    rewrite (drop_S _ _ _ Hi). cbn [take map].
    rewrite (take_S_r _ _ (shift_symbol range_low range_high key
                             (nth i plain_text 0)))
      by (apply list_lookup_insert_eq; lia).
    rewrite take_insert_ge by lia.
    rewrite drop_insert_lt by lia.
    rewrite <- app_assoc. cbn [app].
    by rewrite Nat.add_succ_r.
Qed.

Lemma caesar_encrypt_spec (key : Z) (plain_text cipher_text : list Z) :
  (strlen plain_text < length cipher_text)%nat ->
  caesar_encrypt char_signed range_low range_high key plain_text cipher_text
  = Some (shift_encrypt range_low range_high key (cstring plain_text)
          ++ 0 :: drop (S (strlen plain_text)) cipher_text).
Proof.
  intros Hbuf. unfold caesar_encrypt. cbv zeta.
  assert (Hpos : 0 < range_size) by lia.
  rewrite int_rem_pos by done. cbn [mbind option_bind].
  rewrite int_rem_pos by done. cbn [mbind option_bind].
  rewrite rem_normalise by done.
  rewrite caesar_encrypt_loop_spec by lia.
  cbn [mbind option_bind Nat.add].
  rewrite take_0, drop_0. cbn [app].
  unfold store.
  assert (Hl : length (shift_encrypt range_low range_high key
                         (cstring plain_text)) = strlen plain_text).
  { unfold shift_encrypt. by rewrite length_map, cstring_length. }
  fold (cstring plain_text).
  fold (shift_encrypt range_low range_high key (cstring plain_text)).
  rewrite decide_True by (rewrite length_app, Hl, length_drop; lia).
  f_equal. rewrite <- Hl at 1.
  rewrite insert_app_r_alt, Nat.sub_diag by lia.
  f_equal.
  destruct (drop (strlen plain_text) cipher_text) as [|x r] eqn:Hd.
  - apply (f_equal length) in Hd. rewrite length_drop in Hd. simpl in Hd. lia.
  - simpl. f_equal.
    replace (S (strlen plain_text)) with (strlen plain_text + 1)%nat by lia.
    rewrite <- drop_drop, Hd. reflexivity.
Qed.

End CaesarFacts.

Lemma int_neg_some (key : Z) : key <> INT_MIN -> int_neg key = Some (- key).
Proof. intros H. unfold int_neg. by destruct (Z.eqb_spec key INT_MIN). Qed.

Lemma caesar_decrypt_spec (char_signed : bool) (range_low range_high key : Z)
    (cipher_text plain_text : list Z) :
  is_char char_signed range_low -> is_char char_signed range_high ->
  range_low < range_high -> key <> INT_MIN ->
  (strlen cipher_text < length plain_text)%nat ->
  caesar_decrypt char_signed range_low range_high key cipher_text plain_text
  = Some (shift_decrypt range_low range_high key (cstring cipher_text)
          ++ 0 :: drop (S (strlen cipher_text)) plain_text).
Proof.
  intros Hlo Hhi Hr Hk Hbuf. unfold caesar_decrypt.
  rewrite int_neg_some by done. cbn [mbind option_bind].
  by rewrite caesar_encrypt_spec.
Qed.

(** ** The Vigenere loop *)

Lemma nth_cstring (s : list Z) (i : nat) :
  (i < strlen s)%nat -> nth i (cstring s) 0 = nth i s 0.
Proof.
  intros Hi. apply nth_lookup_Some. by apply cstring_nth.
Qed.

Lemma poly_from_length (sign range_low range_high : Z) (keyword : list Z)
    (input : list Z) :
  forall k_idx : nat,
    length (poly_from sign range_low range_high keyword k_idx input)
    = length input.
Proof.
  induction input as [|c input IH]; intros k_idx; simpl; [reflexivity|].
  by rewrite IH.
Qed.

Lemma next_index_bound (range_low range_high : Z) (keyword_length k_idx : nat)
    (c : Z) :
  (k_idx < keyword_length)%nat ->
  (next_index range_low range_high keyword_length k_idx c < keyword_length)%nat.
Proof.
  intros Hk. unfold next_index.
  destruct (in_range range_low range_high c); [|done].
  apply Nat.mod_upper_bound. lia.
Qed.

Section VigenereFacts.

Variable caesar : Z -> Z -> Z -> list Z -> list Z -> option (list Z).
Variable sign : Z.
Variables range_low range_high : Z.
Variables key plain_text : list Z.

Hypothesis keyword_valid : valid_keyword range_low range_high (cstring key).

(** What the loop needs of the Caesar transform it calls. *)
Hypothesis caesar_spec :
  forall (k : Z) (text buf : list Z),
    0 <= k -> (strlen text < length buf)%nat ->
    caesar range_low range_high k text buf
    = Some (shift_encrypt range_low range_high (sign * k) (cstring text)
            ++ 0 :: drop (S (strlen text)) buf).

Local Abbreviation key_length := (strlen key).

Lemma key_length_pos : (0 < key_length)%nat.
Proof.
  destruct keyword_valid as [Hne _].
  rewrite <- cstring_length. destruct (cstring key); [done | simpl; lia].
Qed.

Lemma caesar_key_nonneg (index : nat) :
  (index < key_length)%nat -> 0 <= nth index key 0 - range_low.
Proof.
  intros Hi. destruct keyword_valid as [_ Hall].
  rewrite Forall_forall in Hall.
  specialize (Hall (nth index key 0)).
  enough (range_low <= nth index key 0 <= range_high) by lia.
  apply Hall, list_elem_of_lookup.
  exists index. by apply cstring_nth.
Qed.

Lemma vigenere_step_spec (n i index : nat) (cipher_text : list Z) :
  (i + S n = strlen plain_text)%nat ->
  (i + S n < length cipher_text)%nat ->
  (index < key_length)%nat ->
  exists buf : list Z,
    vigenere_step caesar range_low range_high key key_length plain_text
      i index cipher_text
    = Some (next_index range_low range_high (length (cstring key)) index
              (nth i plain_text 0), buf)
    /\ take (S i) buf
       = take i cipher_text
         ++ [poly_symbol sign range_low range_high (cstring key) index
               (nth i plain_text 0)]
    /\ drop (S (S i + n)) buf = drop (S (i + S n)) cipher_text
    /\ length buf = length cipher_text.
Proof.
  intros Hlen Hbuf Hidx. unfold vigenere_step, poly_symbol, next_index.
  cbv zeta. rewrite cstring_length.
  destruct (strlen_lookup plain_text i) as [Hi _]; [lia|].
  destruct (in_range range_low range_high (nth i plain_text 0)) eqn:Hc.
  - assert (Hs : strlen (drop i plain_text) = S n)
      by (rewrite strlen_drop; lia).
    rewrite caesar_spec;
      [| by apply caesar_key_nonneg | rewrite Hs, length_drop; lia].
    cbn [mbind option_bind]. unfold size_rem.
    pose proof key_length_pos as Hk.
    destruct (Nat.eqb_spec key_length 0); [lia|].
    cbn [mbind option_bind].
    eexists; split; [reflexivity|].
    rewrite nth_cstring by done.
    unfold cstring. rewrite Hs, (drop_S _ _ _ Hi).
    set (g := shift_symbol range_low range_high
                (sign * (nth index key 0 - range_low))).
    assert (Hti : length (take i cipher_text) = i)
      by (rewrite length_take; lia).
    assert (Hm : length (take n (drop (S i) plain_text)) = n).
    { rewrite length_take, length_drop.
      pose proof (strlen_le_length plain_text). lia. }
    repeat split.
    + replace (S i) with (i + 1)%nat by lia.
      rewrite take_app_add' by done. reflexivity.
    + replace (S (S i + n)) with (i + S (S n))%nat by lia.
      rewrite drop_app_add' by done.
      unfold shift_encrypt. cbn [take map app].
      change (S (S n)) with (1 + S n)%nat at 1.
      rewrite <- drop_drop. cbn [drop].
      rewrite drop_0.
      replace (S n) with (n + 1)%nat at 1 by lia.
      rewrite drop_app_add' by (by rewrite length_map).
      cbn [drop]. rewrite drop_0, drop_drop. f_equal. lia.
    + rewrite length_app, Hti. unfold shift_encrypt.
      rewrite length_app, length_map. cbn [take length].
      rewrite Hm, !length_drop. lia.
  - unfold store. rewrite decide_True by lia. cbn [mbind option_bind].
    eexists; split; [reflexivity|]. repeat split.
    + rewrite (take_S_r _ _ (nth i plain_text 0))
        by (apply list_lookup_insert_eq; lia).
      by rewrite take_insert_ge by lia.
    + rewrite drop_insert_lt by lia. f_equal. lia.
    + apply length_insert.
Qed.

Lemma vigenere_loop_spec :
  forall (n i index : nat) (cipher_text : list Z),
    (i + n = strlen plain_text)%nat ->
    (i + n < length cipher_text)%nat ->
    (index < key_length)%nat ->
    exists z : Z,
      vigenere_loop caesar range_low range_high key key_length plain_text
        n i index cipher_text
      = Some (index_after range_low range_high (length (cstring key)) index
                (take n (drop i plain_text)),
              take i cipher_text
              ++ poly_from sign range_low range_high (cstring key) index
                   (take n (drop i plain_text))
              ++ z :: drop (S (i + n)) cipher_text).
Proof.
  induction n as [|n IH]; intros i index cipher_text Hlen Hbuf Hidx.
  - destruct (lookup_lt_is_Some_2 cipher_text i) as [z Hz]; [lia|].
    exists z. rewrite take_0, Nat.add_0_r.
    cbn [vigenere_loop index_after poly_from app].
    by rewrite take_drop_middle.
  - destruct (vigenere_step_spec n i index cipher_text Hlen Hbuf Hidx)
      as (buf & Hstep & Htake & Hdrop & Hl).
    destruct (IH (S i)
                (next_index range_low range_high (length (cstring key))
                   index (nth i plain_text 0)) buf) as [z Hz].
    + lia.
    + lia.
    + rewrite <- (cstring_length key).
      apply next_index_bound. by rewrite cstring_length.
    + exists z. cbn [vigenere_loop]. rewrite Hstep.
      cbn [mbind option_bind]. rewrite Hz, Htake, Hdrop.
      destruct (strlen_lookup plain_text i) as [Hi _]; [lia|].
      rewrite (drop_S _ _ _ Hi), firstn_cons.
      cbn [index_after poly_from].
      by rewrite <- app_assoc.
Qed.

Lemma vigenere_spec (cipher_text : list Z) :
  (strlen plain_text < length cipher_text)%nat ->
  vigenere caesar range_low range_high key plain_text cipher_text
  = Some (poly_from sign range_low range_high (cstring key) O
            (cstring plain_text)
          ++ 0 :: drop (S (strlen plain_text)) cipher_text).
Proof.
  intros Hbuf. unfold vigenere. cbv zeta.
  destruct (vigenere_loop_spec (strlen plain_text) O O cipher_text)
    as [z Hz]; [lia | lia | apply key_length_pos |].
  rewrite Hz. cbn [mbind option_bind].
  rewrite take_0, drop_0. cbn [app Nat.add].
  fold (cstring plain_text).
  set (out := poly_from sign range_low range_high (cstring key) O
                (cstring plain_text)).
  assert (Hl : length out = strlen plain_text)
    by (unfold out; by rewrite poly_from_length, cstring_length).
  unfold store.
  rewrite decide_True by (rewrite length_app, Hl; simpl; lia).
  f_equal. rewrite <- Hl at 1.
  by rewrite insert_app_r_alt, Nat.sub_diag by lia.
Qed.

(** The key index of the loop after the whole text. *)
Lemma vigenere_loop_index (cipher_text : list Z) :
  (strlen plain_text < length cipher_text)%nat ->
  fst <$> vigenere_loop caesar range_low range_high key key_length
            plain_text (strlen plain_text) O O cipher_text
  = Some (index_after range_low range_high key_length O
            (cstring plain_text)).
Proof.
  intros Hbuf.
  destruct (vigenere_loop_spec (strlen plain_text) O O cipher_text)
    as [z Hz]; [lia | lia | apply key_length_pos |].
  rewrite Hz. cbn [fmap option_fmap option_map fst].
  by rewrite drop_0, cstring_length.
Qed.

End VigenereFacts.

Lemma vigenere_encrypt_spec (char_signed : bool) (range_low range_high : Z)
    (key plain_text cipher_text : list Z) :
  is_char char_signed range_low -> is_char char_signed range_high ->
  range_low < range_high ->
  valid_keyword range_low range_high (cstring key) ->
  (strlen plain_text < length cipher_text)%nat ->
  vigenere_encrypt char_signed range_low range_high key plain_text cipher_text
  = Some (poly_encrypt range_low range_high (cstring key) (cstring plain_text)
          ++ 0 :: drop (S (strlen plain_text)) cipher_text).
Proof.
  intros Hlo Hhi Hr Hkey Hbuf. unfold vigenere_encrypt, poly_encrypt.
  apply vigenere_spec; try done.
  intros k text buf _ Hb. rewrite Z.mul_1_l. by apply caesar_encrypt_spec.
Qed.

Lemma vigenere_decrypt_spec (char_signed : bool) (range_low range_high : Z)
    (key cipher_text plain_text : list Z) :
  is_char char_signed range_low -> is_char char_signed range_high ->
  range_low < range_high ->
  valid_keyword range_low range_high (cstring key) ->
  (strlen cipher_text < length plain_text)%nat ->
  vigenere_decrypt char_signed range_low range_high key cipher_text plain_text
  = Some (poly_decrypt range_low range_high (cstring key) (cstring cipher_text)
          ++ 0 :: drop (S (strlen cipher_text)) plain_text).
Proof.
  intros Hlo Hhi Hr Hkey Hbuf. unfold vigenere_decrypt, poly_decrypt.
  apply vigenere_spec; try done.
  intros k text buf Hk Hb.
  replace (-1 * k) with (- k) by lia.
  apply caesar_decrypt_spec; try done. unfold INT_MIN. lia.
Qed.

(** ** Algebra of the shift of one symbol *)

Section ShiftFacts.

Variables range_low range_high : Z.
Hypothesis range_valid : range_low < range_high.

Local Abbreviation range_size := (range_high - range_low + 1).

Lemma in_range_iff (c : Z) :
  in_range range_low range_high c = true <-> range_low <= c <= range_high.
Proof. unfold in_range. rewrite andb_true_iff, !Z.leb_le. tauto. Qed.

Lemma shift_symbol_in_range (key c : Z) :
  in_range range_low range_high (shift_symbol range_low range_high key c)
  = in_range range_low range_high c.
Proof.
  destruct (in_range range_low range_high c) eqn:Hc.
  - apply in_range_iff. by apply shift_symbol_bounds.
  - by rewrite shift_symbol_out.
Qed.

Lemma shift_symbol_inverse (key c : Z) :
  shift_symbol range_low range_high (- key)
    (shift_symbol range_low range_high key c) = c.
Proof.
  destruct (in_range range_low range_high c) eqn:Hc.
  - rewrite (shift_symbol_in range_low range_high range_valid (- key))
      by (by rewrite shift_symbol_in_range).
    rewrite shift_symbol_in by done.
    apply in_range_iff in Hc.
    replace (range_low + (c - range_low + key mod range_size) mod range_size
             - range_low)
      with ((c - range_low + key mod range_size) mod range_size) by lia.
    rewrite <- Zplus_mod.
    replace (c - range_low + key mod range_size + - key)
      with (c - range_low - key + key mod range_size) by lia.
    rewrite Zplus_mod_idemp_r.
    replace (c - range_low - key + key) with (c - range_low) by lia.
    rewrite Z.mod_small; lia.
  - rewrite (shift_symbol_out range_low range_high key c Hc).
    by apply shift_symbol_out.
Qed.

Lemma shift_symbol_period (key n c : Z) :
  shift_symbol range_low range_high (key + n * range_size) c
  = shift_symbol range_low range_high key c.
Proof.
  destruct (in_range range_low range_high c) eqn:Hc.
  - rewrite !shift_symbol_in by done. by rewrite Z_mod_plus_full.
  - by rewrite !shift_symbol_out.
Qed.

Lemma shift_symbol_not_nul (key c : Z) :
  ~ (range_low <= 0 <= range_high) -> c <> 0 ->
  shift_symbol range_low range_high key c <> 0.
Proof.
  intros Hnul Hc. destruct (in_range range_low range_high c) eqn:Hin.
  - pose proof (shift_symbol_bounds range_low range_high range_valid key c Hin).
    lia.
  - by rewrite shift_symbol_out.
Qed.

Lemma shift_encrypt_inverse (key : Z) (input : list Z) :
  shift_decrypt range_low range_high key
    (shift_encrypt range_low range_high key input) = input.
Proof.
  unfold shift_decrypt, shift_encrypt. rewrite map_map.
  rewrite <- (map_id input) at 2. apply map_ext.
  intros c. apply shift_symbol_inverse.
Qed.

Lemma shift_encrypt_not_nul (key : Z) (input : list Z) :
  ~ (range_low <= 0 <= range_high) ->
  Forall (fun c => c <> 0) input ->
  Forall (fun c => c <> 0) (shift_encrypt range_low range_high key input).
Proof.
  intros Hnul Hin. unfold shift_encrypt. apply Forall_map.
  eapply Forall_impl; [exact Hin|].
  intros c Hc. by apply shift_symbol_not_nul.
Qed.

(** *** The same for the polyalphabetic transform *)

Variable keyword : list Z.

Lemma poly_symbol_in_range (sign : Z) (k_idx : nat) (c : Z) :
  in_range range_low range_high
    (poly_symbol sign range_low range_high keyword k_idx c)
  = in_range range_low range_high c.
Proof.
  unfold poly_symbol. destruct (in_range range_low range_high c) eqn:Hc.
  - by rewrite shift_symbol_in_range.
  - done.
Qed.

Lemma poly_symbol_out (sign : Z) (k_idx : nat) (c : Z) :
  in_range range_low range_high c = false ->
  poly_symbol sign range_low range_high keyword k_idx c = c.
Proof. intros Hc. unfold poly_symbol. by rewrite Hc. Qed.

Lemma poly_symbol_inverse (k_idx : nat) (c : Z) :
  poly_symbol (-1) range_low range_high keyword k_idx
    (poly_symbol 1 range_low range_high keyword k_idx c) = c.
Proof.
  unfold poly_symbol at 1. rewrite poly_symbol_in_range.
  unfold poly_symbol. destruct (in_range range_low range_high c); [|done].
  cbv zeta.
  replace (-1 * (nth k_idx keyword 0 - range_low))
    with (- (1 * (nth k_idx keyword 0 - range_low))) by lia.
  apply shift_symbol_inverse.
Qed.

Lemma next_index_poly (sign : Z) (n k_idx j : nat) (c : Z) :
  next_index range_low range_high n k_idx
    (poly_symbol sign range_low range_high keyword j c)
  = next_index range_low range_high n k_idx c.
Proof. unfold next_index. by rewrite poly_symbol_in_range. Qed.

Lemma poly_inverse (input : list Z) :
  forall k_idx : nat,
    poly_from (-1) range_low range_high keyword k_idx
      (poly_from 1 range_low range_high keyword k_idx input) = input.
Proof.
  induction input as [|c input IH]; intros k_idx; [reflexivity|].
  cbn [poly_from]. by rewrite poly_symbol_inverse, next_index_poly, IH.
Qed.

Lemma poly_not_nul (sign : Z) (input : list Z) :
  ~ (range_low <= 0 <= range_high) ->
  Forall (fun c => c <> 0) input ->
  forall k_idx : nat,
    Forall (fun c => c <> 0)
      (poly_from sign range_low range_high keyword k_idx input).
Proof.
  intros Hnul. induction 1 as [|c input Hc _ IH]; intros k_idx;
    cbn [poly_from]; constructor; [|apply IH].
  unfold poly_symbol. destruct (in_range range_low range_high c); [|done].
  by apply shift_symbol_not_nul.
Qed.

(** Position by position: the symbol at [i] is the image of the input
    symbol at [i] under some value of the cyclic index. *)
Lemma poly_lookup (sign : Z) (input : list Z) :
  forall (k_idx i : nat) (c : Z),
    input !! i = Some c ->
    exists j : nat,
      poly_from sign range_low range_high keyword k_idx input !! i
      = Some (poly_symbol sign range_low range_high keyword j c).
Proof.
  induction input as [|x input IH]; intros k_idx i c Hi; [done|].
  destruct i as [|i]; cbn [poly_from].
  - injection Hi as ->. by exists k_idx.
  - by apply IH.
Qed.

(** Deleting the out-of-range symbols does not change the cyclic index. *)
Lemma index_after_filter (n : nat) (input : list Z) :
  forall k_idx : nat,
    index_after range_low range_high n k_idx
      (List.filter (in_range range_low range_high) input)
    = index_after range_low range_high n k_idx input.
Proof.
  induction input as [|c input IH]; intros k_idx; [reflexivity|].
  cbn [List.filter index_after]. unfold next_index.
  destruct (in_range range_low range_high c) eqn:Hc.
  - cbn [index_after]. unfold next_index. rewrite Hc. apply IH.
  - apply IH.
Qed.

End ShiftFacts.

(** ** Reading the output buffer position by position *)

Lemma nth_output (body rest : list Z) (i : nat) :
  (i < length body)%nat -> nth i (body ++ 0 :: rest) 0 = nth i body 0.
Proof. intros Hi. by apply app_nth1. Qed.

Lemma nth_terminator (body rest : list Z) :
  nth (length body) (body ++ 0 :: rest) 0 = 0.
Proof. by rewrite app_nth2, Nat.sub_diag by lia. Qed.

Lemma nth_shift_encrypt (range_low range_high key : Z) (input : list Z)
    (i : nat) :
  (i < length input)%nat ->
  nth i (shift_encrypt range_low range_high key input) 0
  = shift_symbol range_low range_high key (nth i input 0).
Proof.
  intros Hi. unfold shift_encrypt.
  rewrite (nth_indep _ 0 (shift_symbol range_low range_high key 0))
    by (by rewrite length_map).
  apply map_nth.
Qed.

Lemma nth_poly_from (sign range_low range_high : Z) (keyword input : list Z)
    (k_idx i : nat) :
  (i < length input)%nat ->
  exists j : nat,
    nth i (poly_from sign range_low range_high keyword k_idx input) 0
    = poly_symbol sign range_low range_high keyword j (nth i input 0).
Proof.
  intros Hi.
  destruct (lookup_lt_is_Some_2 input i Hi) as [c Hc].
  destruct (poly_lookup range_low range_high keyword sign input k_idx i c Hc)
    as [j Hj].
  exists j. rewrite (nth_lookup_Some _ _ 0 _ Hj).
  by rewrite (nth_lookup_Some _ _ 0 _ Hc).
Qed.

Lemma length_output (body buf : list Z) :
  (length body < length buf)%nat ->
  length (body ++ 0 :: drop (S (length body)) buf) = length buf.
Proof.
  intros H. rewrite length_app. cbn [length]. rewrite length_drop. lia.
Qed.

(** ** The properties of the design document *)

(** C3: for a valid range and every [int] key, [caesar_encrypt] returns,
    and writes at each position [i] of the string the symbol
    [range_low + ((input[i] - range_low + normalized_key) mod range_size)]
    when [input[i]] is in the range, with
    [normalized_key = ((key mod range_size) + range_size) mod range_size],
    and [input[i]] itself otherwise; the terminator follows and the rest
    of the buffer is untouched.  With range 'A'..'Z' and key 3,
    "HELLOWORLD" becomes "KHOORZRUOG". *)
Theorem caesar_encrypt_formula (char_signed : bool)
    (range_low range_high key : Z) (plain_text cipher_text : list Z) :
  is_char char_signed range_low -> is_char char_signed range_high ->
  range_low < range_high -> is_int key ->
  (strlen plain_text < length cipher_text)%nat ->
  let range_size := range_high - range_low + 1 in
  let normalized_key := ((key mod range_size) + range_size) mod range_size in
  (exists out : list Z,
     caesar_encrypt char_signed range_low range_high key plain_text cipher_text
     = Some out
     /\ length out = length cipher_text
     /\ (forall i : nat, (i < strlen plain_text)%nat ->
           nth i out 0
           = if in_range range_low range_high (nth i plain_text 0)
             then range_low
                  + ((nth i plain_text 0 - range_low + normalized_key)
                     mod range_size)
             else nth i plain_text 0)
     /\ nth (strlen plain_text) out 0 = 0
     /\ drop (S (strlen plain_text)) out
        = drop (S (strlen plain_text)) cipher_text
     /\ out = shift_encrypt range_low range_high key (cstring plain_text)
              ++ 0 :: drop (S (strlen plain_text)) cipher_text)
  /\ caesar_encrypt char_signed 65 90 3 (char_codes "HELLOWORLD")
       (replicate 11 0)
     = Some (char_codes "KHOORZRUOG" ++ [0]).
Proof.
  intros Hlo Hhi Hr _ Hbuf range_size normalized_key. split.
  - eexists. split; [by apply caesar_encrypt_spec|].
    set (body := shift_encrypt range_low range_high key (cstring plain_text)).
    assert (Hl : length body = strlen plain_text)
      by (unfold body, shift_encrypt; by rewrite length_map, cstring_length).
    rewrite <- Hl. repeat split.
    + apply length_output. lia.
    + intros i Hi. rewrite nth_output by done. unfold body.
      rewrite nth_shift_encrypt by (rewrite cstring_length; lia).
      rewrite nth_cstring by lia. reflexivity.
    + apply nth_terminator.
    + change (S (length body)) with (1 + length body)%nat.
      rewrite Nat.add_comm at 1. by rewrite drop_app_add'.
  - by destruct char_signed.
Qed.

Lemma caesar_encrypt_formula_witness :
  exists out : list Z,
    caesar_encrypt true 65 90 (-3) (char_codes "ABC, xyz") (replicate 9 0)
    = Some out
    /\ nth 0 out 0 = 88 /\ nth 3 out 0 = 44.
Proof.
  destruct (caesar_encrypt_formula true 65 90 (-3) (char_codes "ABC, xyz")
              (replicate 9 0)) as [(out & Hrun & _ & Hnth & _) _].
  - unfold is_char, CHAR_MIN, CHAR_MAX. lia.
  - unfold is_char, CHAR_MIN, CHAR_MAX. lia.
  - lia.
  - unfold is_int, INT_MIN, INT_MAX. lia.
  - vm_compute. lia.
  - exists out. split; [exact Hrun|]. split.
    + rewrite (Hnth 0%nat) by (vm_compute; lia). reflexivity.
    + rewrite (Hnth 3%nat) by (vm_compute; lia). reflexivity.
Defined.

(** Scenario 2 of the design document. *)
Example caesar_decrypt_scenario :
  caesar_decrypt true 65 90 3 (char_codes "KHOORZRUOG") (replicate 11 0)
  = Some (char_codes "HELLOWORLD" ++ [0]).
Proof. vm_compute. reflexivity. Qed.

(** C9: for a valid range, every message and every [int] key, adding a
    multiple of the range size to the key (the sum still an [int]) does
    not change what [caesar_encrypt] writes. *)
Theorem caesar_encrypt_key_period (char_signed : bool)
    (range_low range_high key n : Z) (plain_text cipher_text : list Z) :
  is_char char_signed range_low -> is_char char_signed range_high ->
  range_low < range_high ->
  is_int key -> is_int (key + n * (range_high - range_low + 1)) ->
  (strlen plain_text < length cipher_text)%nat ->
  exists out : list Z,
    caesar_encrypt char_signed range_low range_high key plain_text cipher_text
    = Some out
    /\ caesar_encrypt char_signed range_low range_high
         (key + n * (range_high - range_low + 1)) plain_text cipher_text
       = Some out.
Proof.
  intros Hlo Hhi Hr _ _ Hbuf. eexists.
  split; [by apply caesar_encrypt_spec|].
  rewrite caesar_encrypt_spec by done. do 2 f_equal.
  unfold shift_encrypt. apply map_ext. intros c.
  by apply shift_symbol_period.
Qed.

Lemma caesar_encrypt_key_period_witness :
  exists out : list Z,
    caesar_encrypt false 65 90 3 (char_codes "HELLO") (replicate 6 0)
    = Some out
    /\ caesar_encrypt false 65 90 (3 + (-4) * (90 - 65 + 1))
         (char_codes "HELLO") (replicate 6 0)
       = Some out.
Proof.
  apply (caesar_encrypt_key_period false 65 90 3 (-4)).
  - unfold is_char, CHAR_MIN, CHAR_MAX. lia.
  - unfold is_char, CHAR_MIN, CHAR_MAX. lia.
  - lia.
  - unfold is_int, INT_MIN, INT_MAX. lia.
  - unfold is_int, INT_MIN, INT_MAX. lia.
  - vm_compute. lia.
Defined.

(** C2, as amended: for a valid range that does not contain the NUL
    character, every [int] key other than [INT_MIN] and every message,
    [caesar_decrypt] applied with the same key to the output of
    [caesar_encrypt] returns the original message. *)
Theorem caesar_roundtrip (char_signed : bool) (range_low range_high key : Z)
    (plain_text cipher_text result_text : list Z) :
  is_char char_signed range_low -> is_char char_signed range_high ->
  range_low < range_high -> ~ (range_low <= 0 <= range_high) ->
  is_int key -> key <> INT_MIN ->
  (strlen plain_text < length cipher_text)%nat ->
  (strlen plain_text < length result_text)%nat ->
  exists encrypted decrypted : list Z,
    caesar_encrypt char_signed range_low range_high key plain_text cipher_text
    = Some encrypted
    /\ caesar_decrypt char_signed range_low range_high key encrypted result_text
       = Some decrypted
    /\ cstring decrypted = cstring plain_text.
Proof.
  intros Hlo Hhi Hr Hnul _ Hkey Hc Hp.
  pose proof (cstring_no_nul plain_text) as Hm.
  pose proof (shift_encrypt_not_nul range_low range_high Hr key _ Hnul Hm)
    as Hbody.
  set (body := shift_encrypt range_low range_high key (cstring plain_text))
    in *.
  assert (Hl : length body = strlen plain_text)
    by (unfold body, shift_encrypt; by rewrite length_map, cstring_length).
  exists (body ++ 0 :: drop (S (strlen plain_text)) cipher_text).
  eexists. split; [by apply caesar_encrypt_spec|].
  split.
  - apply caesar_decrypt_spec; try done.
    by rewrite strlen_app_nul, Hl.
  - rewrite (cstring_app_nul body) by done.
    unfold body. rewrite shift_encrypt_inverse by done.
    by apply cstring_app_nul.
Qed.

Lemma caesar_roundtrip_witness :
  exists encrypted decrypted : list Z,
    caesar_encrypt true 65 90 (-30) (char_codes "Hello, WORLD!")
      (replicate 14 0) = Some encrypted
    /\ caesar_decrypt true 65 90 (-30) encrypted (replicate 14 0)
       = Some decrypted
    /\ cstring decrypted = cstring (char_codes "Hello, WORLD!").
Proof.
  apply (caesar_roundtrip true 65 90 (-30)).
  - unfold is_char, CHAR_MIN, CHAR_MAX. lia.
  - unfold is_char, CHAR_MIN, CHAR_MAX. lia.
  - lia.
  - lia.
  - unfold is_int, INT_MIN, INT_MAX. lia.
  - unfold INT_MIN. lia.
  - vm_compute. lia.
  - vm_compute. lia.
Defined.

(** C2 as stated fails twice.  Over the range 0..1, which contains NUL,
    the symbol 1 is encrypted with key 1 to the terminator, so the
    ciphertext is the empty string and so is what [caesar_decrypt]
    returns.  With the key [INT_MIN], an [int], the negation in
    [caesar_decrypt] overflows and nothing is returned. *)
Lemma caesar_roundtrip_fails :
  (is_char true 0 /\ is_char true 1 /\ is_int 1
   /\ ~ exists encrypted decrypted : list Z,
          caesar_encrypt true 0 1 1 [1; 0] [7; 7] = Some encrypted
          /\ caesar_decrypt true 0 1 1 encrypted [7; 7] = Some decrypted
          /\ cstring decrypted = cstring [1; 0])
  /\ (is_char true 65 /\ is_char true 90 /\ is_int INT_MIN
      /\ ~ exists encrypted decrypted : list Z,
             caesar_encrypt true 65 90 INT_MIN [72; 73; 0] [7; 7; 7]
             = Some encrypted
             /\ caesar_decrypt true 65 90 INT_MIN encrypted [7; 7; 7]
                = Some decrypted
             /\ cstring decrypted = cstring [72; 73; 0]).
Proof.
  unfold is_char, CHAR_MIN, CHAR_MAX, is_int, INT_MIN, INT_MAX.
  repeat split; try lia.
  - intros (encrypted & decrypted & He & Hd & Heq).
    vm_compute in He. injection He as <-.
    vm_compute in Hd. injection Hd as <-.
    vm_compute in Heq. discriminate Heq.
  - intros (encrypted & decrypted & He & Hd & Heq).
    vm_compute in Hd. discriminate Hd.
Qed.

(** C4: for a valid range and a non-empty in-range keyword,
    [vigenere_encrypt] returns the per-character transform of the design
    document: the cyclic index starts at 0, each in-range symbol is
    shifted by [keyword[k_idx] - range_low] and advances the index modulo
    the keyword length, every other symbol is copied; the calls of the
    Caesar transform on whole suffixes leave no trace in the final
    output.  [vigenere_decrypt] does the same with the opposite shifts. *)
Theorem vigenere_per_character (char_signed : bool) (range_low range_high : Z)
    (key plain_text cipher_text : list Z) :
  is_char char_signed range_low -> is_char char_signed range_high ->
  range_low < range_high ->
  valid_keyword range_low range_high (cstring key) ->
  (strlen plain_text < length cipher_text)%nat ->
  vigenere_encrypt char_signed range_low range_high key plain_text cipher_text
  = Some (poly_encrypt range_low range_high (cstring key) (cstring plain_text)
          ++ 0 :: drop (S (strlen plain_text)) cipher_text)
  /\ vigenere_decrypt char_signed range_low range_high key plain_text
       cipher_text
     = Some (poly_decrypt range_low range_high (cstring key)
               (cstring plain_text)
             ++ 0 :: drop (S (strlen plain_text)) cipher_text).
Proof.
  intros Hlo Hhi Hr Hkey Hbuf. split.
  - by apply vigenere_encrypt_spec.
  - by apply vigenere_decrypt_spec.
Qed.

Lemma vigenere_per_character_witness :
  vigenere_encrypt true 65 90 (char_codes "KEY") (char_codes "HI, YOU")
    (replicate 8 0)
  = Some (poly_encrypt 65 90 (cstring (char_codes "KEY"))
            (cstring (char_codes "HI, YOU"))
          ++ 0 :: drop (S (strlen (char_codes "HI, YOU"))) (replicate 8 0))
  /\ vigenere_decrypt true 65 90 (char_codes "KEY") (char_codes "HI, YOU")
       (replicate 8 0)
     = Some (poly_decrypt 65 90 (cstring (char_codes "KEY"))
               (cstring (char_codes "HI, YOU"))
             ++ 0 :: drop (S (strlen (char_codes "HI, YOU"))) (replicate 8 0)).
Proof.
  apply (vigenere_per_character true 65 90).
  - unfold is_char, CHAR_MIN, CHAR_MAX. lia.
  - unfold is_char, CHAR_MIN, CHAR_MAX. lia.
  - lia.
  - split; [discriminate|]. vm_compute cstring.
    repeat constructor; lia.
  - vm_compute. lia.
Defined.

(** The first iteration on "AB" with keyword "BC" shifts the whole text by
    one, and the second one then rewrites the second symbol. *)
Example vigenere_step_overwrites_suffix :
  vigenere_step (caesar_encrypt true) 65 90 [66; 67; 0] 2 [65; 66; 0]
    0 0 [7; 7; 7]
  = Some (1%nat, [66; 67; 0])
  /\ vigenere_encrypt true 65 90 [66; 67; 0] [65; 66; 0] [7; 7; 7]
     = Some [66; 68; 0].
Proof. split; vm_compute; reflexivity. Qed.

(** C1, as amended: for a valid range that does not contain the NUL
    character, every non-empty keyword of in-range symbols and every
    message, in-range and out-of-range symbols mixed or not,
    [vigenere_decrypt] applied with the same keyword to the output of
    [vigenere_encrypt] returns the original message. *)
Theorem vigenere_roundtrip (char_signed : bool) (range_low range_high : Z)
    (key plain_text cipher_text result_text : list Z) :
  is_char char_signed range_low -> is_char char_signed range_high ->
  range_low < range_high -> ~ (range_low <= 0 <= range_high) ->
  valid_keyword range_low range_high (cstring key) ->
  (strlen plain_text < length cipher_text)%nat ->
  (strlen plain_text < length result_text)%nat ->
  exists encrypted decrypted : list Z,
    vigenere_encrypt char_signed range_low range_high key plain_text
      cipher_text = Some encrypted
    /\ vigenere_decrypt char_signed range_low range_high key encrypted
         result_text = Some decrypted
    /\ cstring decrypted = cstring plain_text.
Proof.
  intros Hlo Hhi Hr Hnul Hkey Hc Hp.
  pose proof (cstring_no_nul plain_text) as Hm.
  pose proof (poly_not_nul range_low range_high Hr (cstring key) 1 _ Hnul Hm O)
    as Hbody.
  fold (poly_encrypt range_low range_high (cstring key) (cstring plain_text))
    in Hbody.
  set (body := poly_encrypt range_low range_high (cstring key)
                 (cstring plain_text)) in *.
  assert (Hl : length body = strlen plain_text).
  { unfold body, poly_encrypt. by rewrite poly_from_length, cstring_length. }
  exists (body ++ 0 :: drop (S (strlen plain_text)) cipher_text).
  eexists. split; [by apply vigenere_encrypt_spec|].
  split.
  - apply vigenere_decrypt_spec; try done.
    by rewrite strlen_app_nul, Hl.
  - rewrite (cstring_app_nul body) by done.
    unfold body, poly_decrypt, poly_encrypt. rewrite poly_inverse by done.
    by apply cstring_app_nul.
Qed.

Lemma vigenere_roundtrip_witness :
  exists encrypted decrypted : list Z,
    vigenere_encrypt true 65 90 (char_codes "KEY") (char_codes "HELLO, world")
      (replicate 13 0) = Some encrypted
    /\ vigenere_decrypt true 65 90 (char_codes "KEY") encrypted
         (replicate 13 0) = Some decrypted
    /\ cstring decrypted = cstring (char_codes "HELLO, world").
Proof.
  apply (vigenere_roundtrip true 65 90).
  - unfold is_char, CHAR_MIN, CHAR_MAX. lia.
  - unfold is_char, CHAR_MIN, CHAR_MAX. lia.
  - lia.
  - lia.
  - split; [discriminate|]. vm_compute cstring.
    repeat constructor; lia.
  - vm_compute. lia.
  - vm_compute. lia.
Defined.

(** C1 as stated fails over a range that contains NUL: over 0..1 with
    the keyword "\001", the message "\001" is encrypted to the
    terminator, so the ciphertext is the empty string and so is what
    [vigenere_decrypt] returns. *)
Lemma vigenere_roundtrip_fails :
  is_char true 0 /\ is_char true 1 /\ 0 < 1
  /\ valid_keyword 0 1 (cstring [1; 0])
  /\ ~ exists encrypted decrypted : list Z,
         vigenere_encrypt true 0 1 [1; 0] [1; 0] [7; 7] = Some encrypted
         /\ vigenere_decrypt true 0 1 [1; 0] encrypted [7; 7] = Some decrypted
         /\ cstring decrypted = cstring [1; 0].
Proof.
  unfold is_char, CHAR_MIN, CHAR_MAX.
  repeat split; try lia.
  - discriminate.
  - vm_compute cstring. repeat constructor; lia.
  - intros (encrypted & decrypted & He & Hd & Heq).
    vm_compute in He. injection He as <-.
    vm_compute in Hd. injection Hd as <-.
    vm_compute in Heq. discriminate Heq.
Qed.

(** ** Pass-through and closure *)

Lemma shift_passes_through (range_low range_high key : Z)
    (text rest : list Z) :
  passes_through range_low range_high text
    (Some (shift_encrypt range_low range_high key (cstring text)
           ++ 0 :: rest)).
Proof.
  eexists. split; [reflexivity|]. intros i Hi Hout.
  rewrite nth_output
    by (unfold shift_encrypt; by rewrite length_map, cstring_length).
  rewrite nth_shift_encrypt by (by rewrite cstring_length).
  rewrite nth_cstring by done. by apply shift_symbol_out.
Qed.

Lemma poly_passes_through (sign range_low range_high : Z)
    (keyword text rest : list Z) (k_idx : nat) :
  passes_through range_low range_high text
    (Some (poly_from sign range_low range_high keyword k_idx (cstring text)
           ++ 0 :: rest)).
Proof.
  eexists. split; [reflexivity|]. intros i Hi Hout.
  rewrite nth_output by (by rewrite poly_from_length, cstring_length).
  destruct (nth_poly_from sign range_low range_high keyword (cstring text)
              k_idx i) as [j ->]; [by rewrite cstring_length|].
  rewrite nth_cstring by done. by apply poly_symbol_out.
Qed.

Lemma shift_stays_in_range (range_low range_high key : Z)
    (text rest : list Z) :
  range_low < range_high ->
  stays_in_range range_low range_high text
    (Some (shift_encrypt range_low range_high key (cstring text)
           ++ 0 :: rest)).
Proof.
  intros Hr. eexists. split; [reflexivity|]. split.
  { rewrite <- (cstring_length text),
      <- (length_map (shift_symbol range_low range_high key)).
    apply strlen_terminated. }
  intros i Hi Hin.
  rewrite nth_output
    by (unfold shift_encrypt; by rewrite length_map, cstring_length).
  rewrite nth_shift_encrypt by (by rewrite cstring_length).
  rewrite nth_cstring by done. by rewrite shift_symbol_in_range.
Qed.

Lemma poly_stays_in_range (sign range_low range_high : Z)
    (keyword text rest : list Z) (k_idx : nat) :
  range_low < range_high ->
  stays_in_range range_low range_high text
    (Some (poly_from sign range_low range_high keyword k_idx (cstring text)
           ++ 0 :: rest)).
Proof.
  intros Hr. eexists. split; [reflexivity|]. split.
  { rewrite <- (cstring_length text),
      <- (poly_from_length sign range_low range_high keyword (cstring text)
            k_idx).
    apply strlen_terminated. }
  intros i Hi Hin.
  rewrite nth_output by (by rewrite poly_from_length, cstring_length).
  destruct (nth_poly_from sign range_low range_high keyword (cstring text)
              k_idx i) as [j ->]; [by rewrite cstring_length|].
  rewrite nth_cstring by done. by rewrite poly_symbol_in_range.
Qed.

Lemma vigenere_step_out (caesar : Z -> Z -> Z -> list Z -> list Z -> option (list Z))
    (range_low range_high : Z) (key : list Z) (key_length : nat)
    (plain_text : list Z) (i index : nat) (cipher_text : list Z) :
  (i < length cipher_text)%nat ->
  in_range range_low range_high (nth i plain_text 0) = false ->
  vigenere_step caesar range_low range_high key key_length plain_text
    i index cipher_text
  = Some (index, <[i:=nth i plain_text 0]> cipher_text).
Proof.
  intros Hi Hout. unfold vigenere_step. cbv zeta. rewrite Hout.
  unfold store. by rewrite decide_True by done.
Qed.

Lemma vigenere_encrypt_index (char_signed : bool) (range_low range_high : Z)
    (key plain_text cipher_text : list Z) :
  is_char char_signed range_low -> is_char char_signed range_high ->
  range_low < range_high ->
  valid_keyword range_low range_high (cstring key) ->
  (strlen plain_text < length cipher_text)%nat ->
  fst <$> vigenere_loop (caesar_encrypt char_signed) range_low range_high key
            (strlen key) plain_text (strlen plain_text) O O cipher_text
  = Some (index_after range_low range_high (strlen key) O
            (List.filter (in_range range_low range_high) (cstring plain_text))).
Proof.
  intros Hlo Hhi Hr Hkey Hbuf.
  rewrite index_after_filter.
  apply (vigenere_loop_index _ 1); try done.
  intros k text buf _ Hb. rewrite Z.mul_1_l. by apply caesar_encrypt_spec.
Qed.

Lemma vigenere_decrypt_index (char_signed : bool) (range_low range_high : Z)
    (key cipher_text plain_text : list Z) :
  is_char char_signed range_low -> is_char char_signed range_high ->
  range_low < range_high ->
  valid_keyword range_low range_high (cstring key) ->
  (strlen cipher_text < length plain_text)%nat ->
  fst <$> vigenere_loop (caesar_decrypt char_signed) range_low range_high key
            (strlen key) cipher_text (strlen cipher_text) O O plain_text
  = Some (index_after range_low range_high (strlen key) O
            (List.filter (in_range range_low range_high) (cstring cipher_text))).
Proof.
  intros Hlo Hhi Hr Hkey Hbuf.
  rewrite index_after_filter.
  apply (vigenere_loop_index _ (-1)); try done.
  intros k text buf Hk Hb.
  replace (-1 * k) with (- k) by lia.
  apply caesar_decrypt_spec; try done. unfold INT_MIN. lia.
Qed.

(** C5: for a valid range, a valid key (every [int] for [caesar_encrypt],
    every [int] whose negation is an [int] for [caesar_decrypt]) or a
    non-empty in-range keyword, and every message, each of the four
    transforms returns an output in which every out-of-range symbol of
    the message is unchanged at its position.  In the Vigenere transforms
    an iteration on such a symbol stores it and leaves the key index as
    it was, and the index after the whole message is the one after its
    in-range symbols alone. *)
Theorem out_of_range_passes_through (char_signed : bool)
    (range_low range_high caesar_key : Z)
    (key text buf : list Z) :
  is_char char_signed range_low -> is_char char_signed range_high ->
  range_low < range_high ->
  is_int caesar_key ->
  valid_keyword range_low range_high (cstring key) ->
  (strlen text < length buf)%nat ->
  passes_through range_low range_high text
    (caesar_encrypt char_signed range_low range_high caesar_key text buf)
  /\ (is_int (- caesar_key) ->
      passes_through range_low range_high text
        (caesar_decrypt char_signed range_low range_high caesar_key text buf))
  /\ passes_through range_low range_high text
       (vigenere_encrypt char_signed range_low range_high key text buf)
  /\ passes_through range_low range_high text
       (vigenere_decrypt char_signed range_low range_high key text buf)
  /\ (forall (caesar : Z -> Z -> Z -> list Z -> list Z -> option (list Z))
             (i index : nat) (cipher_text : list Z),
        (i < length cipher_text)%nat ->
        in_range range_low range_high (nth i text 0) = false ->
        vigenere_step caesar range_low range_high key (strlen key) text
          i index cipher_text
        = Some (index, <[i:=nth i text 0]> cipher_text))
  /\ fst <$> vigenere_loop (caesar_encrypt char_signed) range_low range_high
               key (strlen key) text (strlen text) O O buf
     = Some (index_after range_low range_high (strlen key) O
               (List.filter (in_range range_low range_high) (cstring text)))
  /\ fst <$> vigenere_loop (caesar_decrypt char_signed) range_low range_high
               key (strlen key) text (strlen text) O O buf
     = Some (index_after range_low range_high (strlen key) O
               (List.filter (in_range range_low range_high) (cstring text))).
Proof.
  intros Hlo Hhi Hr _ Hkey Hbuf.
  repeat apply conj.
  - rewrite caesar_encrypt_spec by done. apply shift_passes_through.
  - intros Hneg.
    assert (Hmin : caesar_key <> INT_MIN)
      by (unfold is_int, INT_MIN, INT_MAX in *; lia).
    rewrite caesar_decrypt_spec by done. apply shift_passes_through.
  - rewrite vigenere_encrypt_spec by done. apply poly_passes_through.
  - rewrite vigenere_decrypt_spec by done. apply poly_passes_through.
  - intros caesar i index cipher_text. apply vigenere_step_out.
  - by apply vigenere_encrypt_index.
  - by apply vigenere_decrypt_index.
Qed.

Lemma out_of_range_passes_through_witness :
  passes_through 65 90 (char_codes "A b,C")
    (vigenere_decrypt true 65 90 (char_codes "KEY") (char_codes "A b,C")
       (replicate 6 0)).
Proof.
  apply (out_of_range_passes_through true 65 90 5 (char_codes "KEY")
           (char_codes "A b,C") (replicate 6 0)).
  - unfold is_char, CHAR_MIN, CHAR_MAX. lia.
  - unfold is_char, CHAR_MIN, CHAR_MAX. lia.
  - lia.
  - unfold is_int, INT_MIN, INT_MAX. lia.
  - split; [discriminate|]. vm_compute cstring.
    repeat constructor; lia.
  - vm_compute. lia.
Defined.

(** C10: for a valid range, every [int] key and every input, wherever
    the input of [caesar_encrypt] has an in-range symbol its output has
    an in-range symbol; the same holds of [caesar_decrypt] (for a key
    whose negation is an [int]) and, with a non-empty in-range keyword,
    of [vigenere_encrypt] and [vigenere_decrypt].  The output is a
    terminated string no longer than the input, so it is an input that
    the decryption over the same range accepts with the same buffer. *)
Theorem in_range_closure (char_signed : bool)
    (range_low range_high caesar_key : Z) (key text buf : list Z) :
  is_char char_signed range_low -> is_char char_signed range_high ->
  range_low < range_high ->
  is_int caesar_key ->
  (strlen text < length buf)%nat ->
  stays_in_range range_low range_high text
    (caesar_encrypt char_signed range_low range_high caesar_key text buf)
  /\ (is_int (- caesar_key) ->
      stays_in_range range_low range_high text
        (caesar_decrypt char_signed range_low range_high caesar_key text buf))
  /\ (valid_keyword range_low range_high (cstring key) ->
      stays_in_range range_low range_high text
        (vigenere_encrypt char_signed range_low range_high key text buf)
      /\ stays_in_range range_low range_high text
           (vigenere_decrypt char_signed range_low range_high key text buf)).
Proof.
  intros Hlo Hhi Hr _ Hbuf. repeat apply conj.
  - rewrite caesar_encrypt_spec by done. by apply shift_stays_in_range.
  - intros Hneg.
    assert (Hmin : caesar_key <> INT_MIN)
      by (unfold is_int, INT_MIN, INT_MAX in *; lia).
    rewrite caesar_decrypt_spec by done. by apply shift_stays_in_range.
  - intros Hkey. split.
    + rewrite vigenere_encrypt_spec by done. by apply poly_stays_in_range.
    + rewrite vigenere_decrypt_spec by done. by apply poly_stays_in_range.
Qed.

Lemma in_range_closure_witness :
  stays_in_range 65 90 (char_codes "XYZ abc")
    (caesar_encrypt true 65 90 INT_MIN (char_codes "XYZ abc") (replicate 8 0)).
Proof.
  apply (in_range_closure true 65 90 INT_MIN [] (char_codes "XYZ abc")
           (replicate 8 0)).
  - unfold is_char, CHAR_MIN, CHAR_MAX. lia.
  - unfold is_char, CHAR_MIN, CHAR_MAX. lia.
  - lia.
  - unfold is_int, INT_MIN, INT_MAX. lia.
  - vm_compute. lia.
Defined.

(** C8, as amended: for a valid range, [caesar_encrypt] returns for every
    [int] key, [caesar_decrypt] for every [int] key other than [INT_MIN],
    and [vigenere_encrypt] and [vigenere_decrypt] for every non-empty
    in-range keyword, on every message.  The key length that
    [(index + 1) % key_length] divides by is positive there, so this
    remainder is always defined. *)
Theorem transforms_total (char_signed : bool)
    (range_low range_high caesar_key : Z) (key text buf : list Z) :
  is_char char_signed range_low -> is_char char_signed range_high ->
  range_low < range_high ->
  is_int caesar_key ->
  (strlen text < length buf)%nat ->
  is_Some (caesar_encrypt char_signed range_low range_high caesar_key text buf)
  /\ (caesar_key <> INT_MIN ->
      is_Some (caesar_decrypt char_signed range_low range_high caesar_key
                 text buf))
  /\ (valid_keyword range_low range_high (cstring key) ->
      is_Some (vigenere_encrypt char_signed range_low range_high key text buf)
      /\ is_Some (vigenere_decrypt char_signed range_low range_high key
                    text buf)
      /\ (0 < strlen key)%nat
      /\ forall index : nat,
           size_rem (index + 1) (strlen key)
           = Some ((index + 1) mod strlen key)%nat).
Proof.
  intros Hlo Hhi Hr _ Hbuf. repeat apply conj.
  - by rewrite caesar_encrypt_spec.
  - intros Hmin. by rewrite caesar_decrypt_spec.
  - intros Hkey.
    pose proof (key_length_pos range_low range_high key Hkey) as Hpos.
    repeat apply conj.
    + by rewrite vigenere_encrypt_spec.
    + by rewrite vigenere_decrypt_spec.
    + exact Hpos.
    + intros index. unfold size_rem.
      destruct (Nat.eqb_spec (strlen key) 0); [lia | reflexivity].
Qed.

Lemma transforms_total_witness :
  is_Some (vigenere_decrypt false 65 90 (char_codes "LEMON")
             (char_codes "Attack at DAWN") (replicate 15 0)).
Proof.
  apply (transforms_total false 65 90 0 (char_codes "LEMON")
           (char_codes "Attack at DAWN") (replicate 15 0)).
  - unfold is_char, CHAR_MIN, CHAR_MAX. lia.
  - unfold is_char, CHAR_MIN, CHAR_MAX. lia.
  - lia.
  - unfold is_int, INT_MIN, INT_MAX. lia.
  - vm_compute. lia.
  - split; [discriminate|]. vm_compute cstring.
    repeat constructor; lia.
Defined.

(** C8 as stated fails for [caesar_decrypt]: the range 'A'..'Z' is valid
    and [INT_MIN] is an [int], but its negation overflows, so the call
    returns nothing, whatever the message. *)
Lemma caesar_decrypt_int_min_undefined :
  is_char true 65 /\ is_char true 90 /\ 65 < 90 /\ is_int INT_MIN
  /\ (strlen [72; 73; 0]%Z < length [7; 7; 7]%Z)%nat
  /\ ~ is_Some (caesar_decrypt true 65 90 INT_MIN [72; 73; 0] [7; 7; 7]).
Proof.
  unfold is_char, CHAR_MIN, CHAR_MAX, is_int, INT_MIN, INT_MAX.
  repeat split; try lia.
  - vm_compute. lia.
  - intros [out Hout]. vm_compute in Hout. discriminate Hout.
Qed.

(** Without a keyword the remainder is undefined as soon as the message
    has an in-range symbol: the precondition of C8 is needed. *)
Example vigenere_empty_keyword_undefined :
  vigenere_encrypt true 65 90 [0] [72; 73; 0] [7; 7; 7] = None
  /\ vigenere_encrypt true 65 90 [0] [33; 0] [7; 7] = Some [33; 0].
Proof. split; vm_compute; reflexivity. Qed.

(** ** The validators of the command-line layer *)

Lemma cstring_nil_iff (s : list Z) :
  (nth O s 0 =? 0) = true <-> cstring s = [].
Proof.
  unfold cstring. destruct s as [|c s]; simpl; [done|].
  destruct (Z.eqb_spec c 0); simpl; split; done.
Qed.

Lemma cstring_cons (c : Z) (s : list Z) :
  c <> 0 -> cstring (c :: s) = c :: cstring s.
Proof.
  intros Hc. unfold cstring. simpl. by destruct (Z.eqb_spec c 0).
Qed.

Lemma validate_key_characters_spec (str : list Z) :
  validate_key_characters str
  = forallb (in_range RANGE_LOW RANGE_HIGH) (cstring str).
Proof.
  induction str as [|c str IH]; [reflexivity|].
  cbn [validate_key_characters].
  destruct (Z.eqb_spec c 0) as [->|Hc]; [reflexivity|].
  rewrite cstring_cons by done. cbn [forallb]. rewrite <- IH.
  unfold in_range.
  destruct (Z.ltb_spec c RANGE_LOW), (Z.ltb_spec RANGE_HIGH c),
    (Z.leb_spec RANGE_LOW c), (Z.leb_spec c RANGE_HIGH);
    simpl; try reflexivity; lia.
Qed.

Lemma contains_whitespace_spec (str : list Z) :
  contains_whitespace str
  = existsb (fun c => isspace (c mod 256)) (cstring str).
Proof.
  induction str as [|c str IH]; [reflexivity|].
  cbn [contains_whitespace].
  destruct (Z.eqb_spec c 0) as [->|Hc]; [reflexivity|].
  rewrite cstring_cons by done. cbn [existsb]. rewrite <- IH.
  by destruct (isspace (c mod 256)).
Qed.

Lemma isdigit_iff (c : Z) : isdigit c = true <-> 48 <= c <= 57.
Proof. unfold isdigit. rewrite andb_true_iff, !Z.leb_le. tauto. Qed.

Lemma isdigit_not_space (c : Z) :
  isdigit c = true -> isspace (c mod 256) = false.
Proof.
  intros Hc%isdigit_iff. rewrite Z.mod_small by lia. unfold isspace.
  destruct (Z.eqb_spec c 32); [lia|].
  destruct (Z.leb_spec 9 c), (Z.leb_spec c 13); simpl; try reflexivity; lia.
Qed.

Lemma digits_no_space (d : list Z) :
  forallb isdigit d = true ->
  existsb (fun c => isspace (c mod 256)) d = false.
Proof.
  induction d as [|c d IH]; [reflexivity|]. cbn [forallb existsb].
  intros [Hc Hd]%andb_true_iff. by rewrite isdigit_not_space, IH.
Qed.

Lemma skip_spaces_none (s : list Z) :
  existsb (fun c => isspace (c mod 256)) s = false -> skip_spaces s = s.
Proof.
  destruct s as [|c s]; [reflexivity|]. cbn [existsb skip_spaces].
  intros [Hc _]%orb_false_iff. by rewrite Hc.
Qed.

Lemma scan_digits_all (d : list Z) :
  forall acc : Z,
    forallb isdigit d = true ->
    scan_digits acc d = (fold_left (fun a c => 10 * a + (c - 48)) d acc, []).
Proof.
  induction d as [|c d IH]; intros acc; [reflexivity|].
  cbn [forallb scan_digits fold_left].
  intros [Hc Hd]%andb_true_iff. rewrite Hc. by apply IH.
Qed.

(** Where the scan stops before the end, it stops on a character of the
    string. *)
Lemma scan_digits_stops (d : list Z) :
  forall acc : Z,
    forallb isdigit d = false ->
    exists c rest, snd (scan_digits acc d) = c :: rest /\ c ∈ d.
Proof.
  induction d as [|c d IH]; intros acc; [done|].
  cbn [forallb scan_digits]. destruct (isdigit c) eqn:Hc.
  - simpl. intros Hd. destruct (IH (10 * acc + (c - 48)) Hd)
      as (x & rest & Hs & Hx).
    exists x, rest. split; [done|]. by apply list_elem_of_further.
  - intros _. exists c, d. split; [done|]. apply list_elem_of_here.
Qed.

Lemma decimal_token_no_space (s : list Z) :
  decimal_token s = true ->
  existsb (fun c => isspace (c mod 256)) s = false.
Proof.
  destruct s as [|c d]; [done|]. cbn [decimal_token].
  destruct (Z.eqb_spec c 43) as [->|H43]; cbn [orb].
  - intros [_ Hd]%andb_true_iff. cbn [existsb]. by rewrite digits_no_space.
  - destruct (Z.eqb_spec c 45) as [->|H45].
    + intros [_ Hd]%andb_true_iff. cbn [existsb]. by rewrite digits_no_space.
    + apply digits_no_space.
Qed.

(** On a decimal token [strtol] converts the whole string. *)
Lemma strtol_token (key_str : list Z) :
  decimal_token (cstring key_str) = true ->
  strtol key_str
  = (Z.max LONG_MIN (Z.min LONG_MAX (token_value (cstring key_str))), [])
  /\ contains_whitespace key_str = false.
Proof.
  intros Htok. pose proof (decimal_token_no_space _ Htok) as Hsp.
  split; [|by rewrite contains_whitespace_spec].
  unfold strtol. rewrite skip_spaces_none by done.
  destruct (cstring key_str) as [|c d]; [done|].
  cbn [decimal_token token_value] in *.
  destruct (Z.eqb_spec c 45) as [->|H45].
  - cbn [Z.eqb orb] in Htok. apply andb_true_iff in Htok as [Hne Hd].
    destruct d as [|x d]; [done|].
    cbn [forallb] in Hd. apply andb_true_iff in Hd as [Hx Hd].
    cbn [nth]. rewrite Hx.
    rewrite scan_digits_all by (cbn [forallb]; by rewrite Hx, Hd).
    reflexivity.
  - destruct (Z.eqb_spec c 43) as [->|H43].
    + cbn [orb] in Htok. apply andb_true_iff in Htok as [Hne Hd].
      destruct d as [|x d]; [done|].
      cbn [forallb] in Hd. apply andb_true_iff in Hd as [Hx Hd].
      cbn [nth]. rewrite Hx.
      rewrite scan_digits_all by (cbn [forallb]; by rewrite Hx, Hd).
      reflexivity.
    + cbn [orb] in Htok. cbn [nth].
      pose proof Htok as Hall.
      cbn [forallb] in Htok. apply andb_true_iff in Htok as [Hc Hd].
      rewrite Hc. by rewrite scan_digits_all.
Qed.

(** On a string without white space that is not a decimal token,
    [strtol] stops before the terminator. *)
Lemma strtol_not_token (key_str : list Z) :
  cstring key_str <> [] ->
  decimal_token (cstring key_str) = false ->
  contains_whitespace key_str = false ->
  nth O (snd (strtol key_str)) 0 <> 0.
Proof.
  intros Hne Htok Hsp. rewrite contains_whitespace_spec in Hsp.
  pose proof (cstring_no_nul key_str) as Hnul.
  rewrite Forall_forall in Hnul.
  unfold strtol. rewrite skip_spaces_none by done.
  destruct (cstring key_str) as [|c d]; [done|].
  assert (Hc0 : c <> 0) by (apply Hnul, list_elem_of_here).
  assert (Hstop : forall body : list Z,
            (forall x, x ∈ body -> x ∈ c :: d) ->
            body = [] \/ forallb isdigit body = false ->
            nth O (snd (if isdigit (nth O body 0)
                        then let '(magnitude, endptr) := scan_digits 0 body in
                             (magnitude, endptr)
                        else (0, c :: d))) 0 <> 0).
  { intros body Hsub [->|Hbody]; [done|].
    destruct (isdigit (nth O body 0)); [|done].
    destruct (scan_digits_stops body 0 Hbody) as (x & rest & Hs & Hx).
    destruct (scan_digits 0 body) as [magnitude endptr].
    cbn [snd] in *. subst endptr. cbn [nth]. by apply Hnul, Hsub. }
  cbn [decimal_token] in Htok.
  destruct (Z.eqb_spec c 45) as [->|H45].
  - cbn [Z.eqb orb] in Htok.
    assert (Hd : d = [] \/ forallb isdigit d = false).
    { destruct d as [|x d]; [by left | right; exact Htok]. }
    specialize (Hstop d (fun x Hx => list_elem_of_further x 45 d Hx) Hd).
    destruct (isdigit (nth O d 0)); [|done].
    by destruct (scan_digits 0 d).
  - destruct (Z.eqb_spec c 43) as [->|H43].
    + cbn [orb] in Htok.
      assert (Hd : d = [] \/ forallb isdigit d = false).
      { destruct d as [|x d]; [by left | right; exact Htok]. }
      specialize (Hstop d (fun x Hx => list_elem_of_further x 43 d Hx) Hd).
      destruct (isdigit (nth O d 0)); [|done].
      by destruct (scan_digits 0 d).
    + cbn [orb] in Htok.
      specialize (Hstop (c :: d) (fun x Hx => Hx) (or_intror Htok)).
      destruct (isdigit (nth O (c :: d) 0)); [|done].
      by destruct (scan_digits 0 (c :: d)).
Qed.

(** ** Runs of the command line *)

Lemma range_chars (char_signed : bool) :
  is_char char_signed RANGE_LOW /\ is_char char_signed RANGE_HIGH.
Proof.
  unfold is_char, CHAR_MIN, CHAR_MAX, RANGE_LOW, RANGE_HIGH.
  destruct char_signed; lia.
Qed.

Lemma strcmp_zero_known (operation name other : list Z) :
  cstring operation = name ->
  strcmp_zero operation other = bool_decide (name = cstring other).
Proof. intros <-. reflexivity. Qed.

Lemma message_guard (message : list Z) :
  (0 < strlen message)%nat -> (nth O message 0 =? 0) = false.
Proof.
  destruct message as [|c message]; simpl; [lia|].
  destruct (Z.eqb_spec c 0); [lia | done].
Qed.

Lemma key_guard (key_str : list Z) :
  cstring key_str <> [] -> (nth O key_str 0 =? 0) = false.
Proof.
  intros Hne. destruct (nth O key_str 0 =? 0) eqn:H; [|done].
  by apply cstring_nil_iff in H.
Qed.

Lemma cli_empty_key (char_signed : bool)
    (program operation key_str message : list Z) :
  cstring key_str = [] ->
  cli char_signed 4 [program; operation; key_str; message]
  = Some (1, print_usage program).
Proof.
  intros Hk%cstring_nil_iff. unfold cli. cbn [Z.eqb Pos.eqb negb nth].
  by rewrite Hk.
Qed.

Lemma print_usage_rejected (program : list Z) :
  rejected (Some (1, print_usage program)).
Proof. eexists. split; [reflexivity|]. by split. Qed.

Lemma cli_caesar (char_signed encrypt : bool)
    (program operation key_str message : list Z) :
  cstring operation = caesar_operation encrypt ->
  cstring key_str <> [] ->
  (0 < strlen message < 1024)%nat ->
  cli char_signed 4 [program; operation; key_str; message]
  = handle_caesar char_signed operation key_str message (replicate 1024 0).
Proof.
  intros Hop Hk [Hm0 Hm]. unfold cli. cbn [Z.eqb Pos.eqb negb nth].
  rewrite key_guard, message_guard by done. cbn [orb].
  destruct (Nat.leb_spec 1024 (strlen message)); [lia|].
  rewrite !(strcmp_zero_known _ _ _ Hop).
  by destruct encrypt.
Qed.

Lemma cli_vigenere (char_signed encrypt : bool)
    (program operation key_str message : list Z) :
  cstring operation = vigenere_operation encrypt ->
  cstring key_str <> [] ->
  (0 < strlen message < 1024)%nat ->
  cli char_signed 4 [program; operation; key_str; message]
  = handle_vigenere char_signed operation key_str message (replicate 1024 0).
Proof.
  intros Hop Hk [Hm0 Hm]. unfold cli. cbn [Z.eqb Pos.eqb negb nth].
  rewrite key_guard, message_guard by done. cbn [orb].
  destruct (Nat.leb_spec 1024 (strlen message)); [lia|].
  rewrite !(strcmp_zero_known _ _ _ Hop).
  by destruct encrypt.
Qed.

(** Whatever the operation, a run that gets past the guards of [cli] with
    a bad message is rejected there. *)
Lemma cli_bad_message (char_signed : bool)
    (program operation key_str message : list Z) :
  ~ (0 < strlen message < 1024)%nat ->
  rejected (cli char_signed 4 [program; operation; key_str; message]).
Proof.
  intros Hm. unfold cli. cbn [Z.eqb Pos.eqb negb nth].
  destruct (nth O key_str 0 =? 0); cbn [orb];
    [apply print_usage_rejected|].
  destruct (nth O message 0 =? 0) eqn:Hm0; [apply print_usage_rejected|].
  destruct (Nat.leb_spec 1024 (strlen message)) as [Hlen|Hlen].
  - eexists. split; [reflexivity|]. by split.
  - exfalso. apply Hm. split; [|done].
    destruct message as [|c message]; simpl in *; [done|].
    destruct (Z.eqb_spec c 0); [done | lia].
Qed.

Lemma handle_caesar_accepts (char_signed encrypt : bool)
    (operation key_str message buf : list Z) :
  cstring operation = caesar_operation encrypt ->
  decimal_token (cstring key_str) = true ->
  is_int (token_value (cstring key_str)) ->
  (strlen message < length buf)%nat ->
  exists out : list Z,
    (if encrypt then caesar_encrypt char_signed else caesar_decrypt char_signed)
      RANGE_LOW RANGE_HIGH (token_value (cstring key_str) mod 26) message buf
    = Some out
    /\ handle_caesar char_signed operation key_str message buf
       = Some (0, [Call (if encrypt then CaesarEncrypt else CaesarDecrypt)
                     RANGE_LOW RANGE_HIGH
                     (inl (token_value (cstring key_str) mod 26)) message;
                   Stdout (cstring out ++ [10])]).
Proof.
  intros Hop Htok Hint Hbuf.
  destruct (strtol_token key_str Htok) as [Hs Hsp].
  destruct (range_chars char_signed) as [Hlo Hhi].
  assert (Hr : RANGE_LOW < RANGE_HIGH) by (unfold RANGE_LOW, RANGE_HIGH; lia).
  set (v := token_value (cstring key_str)) in *.
  assert (Hclamp : Z.max LONG_MIN (Z.min LONG_MAX v) = v)
    by (unfold is_int, INT_MIN, INT_MAX, LONG_MIN, LONG_MAX in *; lia).
  assert (Hmod : 0 <= v mod 26 < 26) by (apply Z.mod_pos_bound; lia).
  unfold handle_caesar. rewrite Hs, Hclamp, Hsp. cbn [nth Z.eqb negb orb].
  destruct (Z.ltb_spec v INT_MIN); [unfold is_int in Hint; lia|].
  destruct (Z.ltb_spec INT_MAX v); [unfold is_int in Hint; lia|].
  cbn [orb]. cbv zeta.
  change (RANGE_HIGH - RANGE_LOW + 1) with 26.
  rewrite rem_normalise by lia.
  rewrite (strcmp_zero_known _ _ _ Hop).
  destruct encrypt.
  - rewrite caesar_encrypt_spec by done. eexists. split; reflexivity.
  - rewrite caesar_decrypt_spec by (try done; unfold INT_MIN; lia).
    eexists. split; reflexivity.
Qed.

Lemma handle_caesar_rejects (char_signed : bool)
    (operation key_str message buf : list Z) :
  cstring key_str <> [] ->
  ~ (decimal_token (cstring key_str) = true
     /\ is_int (token_value (cstring key_str))) ->
  handle_caesar char_signed operation key_str message buf
  = Some (1, [Stderr (char_codes "Please enter a valid integer key" ++ [10])]).
Proof.
  intros Hne Hbad. unfold handle_caesar.
  destruct (contains_whitespace key_str) eqn:Hsp.
  { destruct (strtol key_str) as [v e]. by rewrite orb_true_r. }
  destruct (decimal_token (cstring key_str)) eqn:Htok.
  - destruct (strtol_token key_str Htok) as [Hs _]. rewrite Hs.
    cbn [nth Z.eqb negb orb].
    set (v := token_value (cstring key_str)) in *.
    destruct (Z.ltb_spec (Z.max LONG_MIN (Z.min LONG_MAX v)) INT_MIN);
      [done|].
    destruct (Z.ltb_spec INT_MAX (Z.max LONG_MIN (Z.min LONG_MAX v)));
      [done|].
    exfalso. apply Hbad. split; [done|].
    unfold is_int, INT_MIN, INT_MAX, LONG_MIN, LONG_MAX in *. lia.
  - pose proof (strtol_not_token key_str Hne Htok Hsp) as Hend.
    destruct (strtol key_str) as [v e]. cbn [snd] in Hend.
    destruct (Z.eqb_spec (nth O e 0) 0); done.
Qed.

Lemma forallb_in_range_false (range_low range_high : Z) (keyword : list Z) :
  Exists (fun c => ~ (range_low <= c <= range_high)) keyword ->
  forallb (in_range range_low range_high) keyword = false.
Proof.
  induction 1 as [c keyword Hc | c keyword _ IH]; cbn [forallb].
  - unfold in_range.
    destruct (Z.leb_spec range_low c), (Z.leb_spec c range_high);
      simpl; try reflexivity; lia.
  - rewrite IH. apply andb_false_r.
Qed.

Lemma forallb_in_range_true (range_low range_high : Z) (keyword : list Z) :
  Forall (fun c => range_low <= c <= range_high) keyword ->
  forallb (in_range range_low range_high) keyword = true.
Proof.
  induction 1 as [|c keyword Hc _ IH]; cbn [forallb]; [reflexivity|].
  rewrite IH, andb_true_r. unfold in_range.
  apply andb_true_iff. split; apply Z.leb_le; lia.
Qed.

(** C7: on a Caesar operation with an acceptable message, the run is
    rejected (status 1, a diagnostic, no transform called) for every key
    string that is not a decimal integer token (an optional sign and
    digits, with no white space and nothing after the digits) or whose
    value is not an [int]; for every token whose value is an [int] the
    run succeeds and the Caesar transform is called with the value
    reduced modulo the range size to a non-negative key.  So "12a", " 5"
    and "2147483648" are rejected and "-3" is accepted as the key 23. *)
Theorem integer_key_validation (char_signed encrypt : bool)
    (program operation key_str message : list Z) :
  cstring operation = caesar_operation encrypt ->
  (0 < strlen message < 1024)%nat ->
  let token := cstring key_str in
  let argv := [program; operation; key_str; message] in
  (~ (decimal_token token = true /\ is_int (token_value token)) ->
   rejected (cli char_signed 4 argv))
  /\ (decimal_token token = true -> is_int (token_value token) ->
      exists out : list Z,
        (if encrypt then caesar_encrypt char_signed
         else caesar_decrypt char_signed)
          RANGE_LOW RANGE_HIGH
          (token_value token mod (RANGE_HIGH - RANGE_LOW + 1))
          message (replicate 1024 0)
        = Some out
        /\ 0 <= token_value token mod (RANGE_HIGH - RANGE_LOW + 1)
             < RANGE_HIGH - RANGE_LOW + 1
        /\ cli char_signed 4 argv
           = Some (0, [Call (if encrypt then CaesarEncrypt else CaesarDecrypt)
                         RANGE_LOW RANGE_HIGH
                         (inl (token_value token
                               mod (RANGE_HIGH - RANGE_LOW + 1)))
                         message;
                       Stdout (cstring out ++ [10])]))
  /\ decimal_token (char_codes "12a") = false
  /\ decimal_token (char_codes " 5") = false
  /\ ~ is_int (token_value (char_codes "2147483648"))
  /\ decimal_token (char_codes "-3") = true
  /\ is_int (token_value (char_codes "-3"))
  /\ token_value (char_codes "-3") mod (RANGE_HIGH - RANGE_LOW + 1) = 23.
Proof.
  intros Hop Hmsg token argv. unfold argv, token.
  change (RANGE_HIGH - RANGE_LOW + 1) with 26.
  split; [|split].
  - intros Hbad.
    destruct (decide (cstring key_str = [])) as [Hk|Hk].
    + rewrite cli_empty_key by done. apply print_usage_rejected.
    + rewrite (cli_caesar _ encrypt) by done.
      rewrite handle_caesar_rejects by done.
      eexists. split; [reflexivity|]. by split.
  - intros Htok Hint.
    assert (Hk : cstring key_str <> []).
    { intros Hk. rewrite Hk in Htok. discriminate Htok. }
    rewrite (cli_caesar _ encrypt) by done.
    destruct (handle_caesar_accepts char_signed encrypt operation key_str
                message (replicate 1024 0) Hop Htok Hint)
      as (out & Hout & Hrun).
    { rewrite length_replicate. lia. }
    exists out. split; [exact Hout|]. split; [|exact Hrun].
    apply Z.mod_pos_bound. lia.
  - repeat split; try reflexivity.
    unfold is_int. vm_compute. intros [_ H]. by apply H.
    vm_compute. discriminate. vm_compute. discriminate.
Qed.

Lemma integer_key_validation_witness :
  rejected (cli true 4 [char_codes "safecipher"; char_codes "caesar-decrypt";
                        char_codes "+7 "; char_codes "HELLO"]).
Proof.
  destruct (integer_key_validation true false (char_codes "safecipher")
              (char_codes "caesar-decrypt") (char_codes "+7 ")
              (char_codes "HELLO")) as [Hreject _].
  - reflexivity.
  - vm_compute. lia.
  - apply Hreject. vm_compute. intros [H _]. discriminate H.
Defined.

(** The runs of the design document's scenario 5. *)
Example integer_key_scenarios :
  let run key :=
    cli true 4 [char_codes "safecipher"; char_codes "caesar-encrypt";
                char_codes key; char_codes "HELLO"] in
  let diagnostic :=
    Some (1, [Stderr (char_codes "Please enter a valid integer key" ++ [10])]) in
  run "12a"%string = diagnostic
  /\ run " 5"%string = diagnostic
  /\ run "2147483648"%string = diagnostic
  /\ run "99999999999999999999"%string = diagnostic
  /\ run "-3"%string
     = Some (0, [Call CaesarEncrypt 65 90 (inl 23) (char_codes "HELLO");
                 Stdout (char_codes "EBIIL" ++ [10])])
  /\ run "-2147483648"%string
     = Some (0, [Call CaesarEncrypt 65 90 (inl 2) (char_codes "HELLO");
                 Stdout (char_codes "JGNNQ" ++ [10])]).
Proof. repeat split; vm_compute; reflexivity. Qed.

(** [handle_caesar] alone takes the empty string for the key 0, since
    [strtol] converts nothing and stops on the terminator; it is the
    guard of [cli] that rejects an empty key. *)
Example empty_key_scenarios :
  handle_caesar true (char_codes "caesar-encrypt") [0] (char_codes "HELLO")
    (replicate 1024 0)
  = Some (0, [Call CaesarEncrypt 65 90 (inl 0) (char_codes "HELLO");
              Stdout (char_codes "HELLO" ++ [10])])
  /\ cli true 4 [char_codes "safecipher"; char_codes "caesar-encrypt"; [0];
                 char_codes "HELLO"]
     = Some (1, print_usage (char_codes "safecipher")).
Proof. split; vm_compute; reflexivity. Qed.

(** C6: on a Vigenere operation the run is rejected (status 1, a
    diagnostic, no transform called) whenever the keyword is empty or
    has a symbol outside 'A'..'Z'; a keyword that is accepted reaches the
    transform as it was given, so a lower-case keyword is rejected, not
    folded to upper case. *)
Theorem keyword_validation (char_signed encrypt : bool)
    (program operation key_str message : list Z) :
  cstring operation = vigenere_operation encrypt ->
  let keyword := cstring key_str in
  let argv := [program; operation; key_str; message] in
  (keyword = []
   \/ Exists (fun c => ~ (RANGE_LOW <= c <= RANGE_HIGH)) keyword ->
   rejected (cli char_signed 4 argv))
  /\ (valid_keyword RANGE_LOW RANGE_HIGH keyword ->
      (0 < strlen message < 1024)%nat ->
      exists out : list Z,
        (if encrypt then vigenere_encrypt char_signed
         else vigenere_decrypt char_signed)
          RANGE_LOW RANGE_HIGH key_str message (replicate 1024 0)
        = Some out
        /\ cli char_signed 4 argv
           = Some (0, [Call (if encrypt then VigenereEncrypt
                             else VigenereDecrypt)
                         RANGE_LOW RANGE_HIGH (inr key_str) message;
                       Stdout (cstring out ++ [10])]))
  /\ rejected (cli char_signed 4
                 [program; operation; char_codes "key"; message]).
Proof.
  intros Hop keyword argv. unfold argv, keyword.
  assert (Hreject : forall k : list Z,
            cstring k = []
            \/ Exists (fun c => ~ (RANGE_LOW <= c <= RANGE_HIGH)) (cstring k) ->
            rejected (cli char_signed 4 [program; operation; k; message])).
  { intros k [Hk|Hbad].
    - rewrite cli_empty_key by done. apply print_usage_rejected.
    - destruct (decide (0 < strlen message < 1024)%nat) as [Hmsg|Hmsg];
        [|by apply cli_bad_message].
      assert (Hk : cstring k <> []).
      { intros Hk. rewrite Hk in Hbad. by apply Exists_nil in Hbad. }
      rewrite (cli_vigenere _ encrypt) by done.
      unfold handle_vigenere.
      rewrite validate_key_characters_spec, forallb_in_range_false by done.
      eexists. split; [reflexivity|]. by split. }
  split; [apply Hreject | split].
  - intros [Hne Hall] Hmsg.
    destruct (range_chars char_signed) as [Hlo Hhi].
    assert (Hr : RANGE_LOW < RANGE_HIGH)
      by (unfold RANGE_LOW, RANGE_HIGH; lia).
    rewrite (cli_vigenere _ encrypt) by done.
    unfold handle_vigenere.
    rewrite validate_key_characters_spec, forallb_in_range_true by done.
    cbn [negb]. rewrite (strcmp_zero_known _ _ _ Hop).
    destruct encrypt.
    + rewrite vigenere_encrypt_spec
        by (try done; rewrite length_replicate; lia).
      eexists. split; reflexivity.
    + rewrite vigenere_decrypt_spec
        by (try done; rewrite length_replicate; lia).
      eexists. split; reflexivity.
  - apply Hreject. right. vm_compute cstring.
    apply Exists_cons_hd. unfold RANGE_LOW, RANGE_HIGH. lia.
Qed.

Lemma keyword_validation_witness :
  rejected (cli false 4 [char_codes "safecipher"; char_codes "vigenere-encrypt";
                         char_codes "LEMoN"; char_codes "ATTACK AT DAWN"]).
Proof.
  destruct (keyword_validation false true (char_codes "safecipher")
              (char_codes "vigenere-encrypt") (char_codes "LEMoN")
              (char_codes "ATTACK AT DAWN")) as [Hreject _].
  - reflexivity.
  - apply Hreject. right. vm_compute cstring. do 3 apply Exists_cons_tl.
    apply Exists_cons_hd. unfold RANGE_LOW, RANGE_HIGH. lia.
Defined.

(** The runs of the design document's scenario 6, and a keyword that is
    accepted. *)
Example keyword_scenarios :
  let run key :=
    cli true 4 [char_codes "safecipher"; char_codes "vigenere-encrypt";
                char_codes key; char_codes "HELLO"] in
  run ""%string = Some (1, print_usage (char_codes "safecipher"))
  /\ run "KEy"%string
     = Some (1, [Stderr (char_codes "Key characters must be in the range 'A'->'Z'"
                         ++ [10])])
  /\ run "KEY"%string
     = Some (0, [Call VigenereEncrypt 65 90 (inr (char_codes "KEY"))
                   (char_codes "HELLO");
                 Stdout (char_codes "RIJVS" ++ [10])]).
Proof. repeat split; vm_compute; reflexivity. Qed.

(** * Further properties of the code *)

(** ** The destination buffer *)

Lemma output_frames (text buf body : list Z) :
  length body = strlen text ->
  (strlen text < length buf)%nat ->
  frames text buf (Some (body ++ 0 :: drop (S (strlen text)) buf)).
Proof.
  intros Hl Hbuf. eexists. split; [reflexivity|]. rewrite <- Hl.
  repeat split.
  - apply length_output. lia.
  - apply nth_terminator.
  - change (S (length body)) with (1 + length body)%nat.
    rewrite Nat.add_comm at 1. by rewrite drop_app_add'.
Qed.

Lemma shift_encrypt_length (range_low range_high key : Z) (input : list Z) :
  length (shift_encrypt range_low range_high key input) = length input.
Proof. unfold shift_encrypt. apply length_map. Qed.

(** X1: under their preconditions the four transforms return the
    destination buffer with its length unchanged, a terminator at the
    length of the text, and every byte after the terminator untouched. *)
Theorem transforms_frame (char_signed : bool)
    (range_low range_high caesar_key : Z) (key text buf : list Z) :
  is_char char_signed range_low -> is_char char_signed range_high ->
  range_low < range_high ->
  is_int caesar_key ->
  (strlen text < length buf)%nat ->
  frames text buf
    (caesar_encrypt char_signed range_low range_high caesar_key text buf)
  /\ (caesar_key <> INT_MIN ->
      frames text buf
        (caesar_decrypt char_signed range_low range_high caesar_key text buf))
  /\ (valid_keyword range_low range_high (cstring key) ->
      frames text buf
        (vigenere_encrypt char_signed range_low range_high key text buf)
      /\ frames text buf
           (vigenere_decrypt char_signed range_low range_high key text buf)).
Proof.
  intros Hlo Hhi Hr _ Hbuf. repeat apply conj.
  - rewrite caesar_encrypt_spec by done. apply output_frames; [|done].
    by rewrite shift_encrypt_length, cstring_length.
  - intros Hmin. rewrite caesar_decrypt_spec by done.
    apply output_frames; [|done]. unfold shift_decrypt.
    by rewrite shift_encrypt_length, cstring_length.
  - intros Hkey. split.
    + rewrite vigenere_encrypt_spec by done. apply output_frames; [|done].
      unfold poly_encrypt. by rewrite poly_from_length, cstring_length.
    + rewrite vigenere_decrypt_spec by done. apply output_frames; [|done].
      unfold poly_decrypt. by rewrite poly_from_length, cstring_length.
Qed.

Lemma transforms_frame_witness :
  frames (char_codes "HI") [1; 2; 3; 4; 5]
    (caesar_encrypt true 65 90 1 (char_codes "HI") [1; 2; 3; 4; 5]).
Proof.
  destruct (transforms_frame true 65 90 1 [] (char_codes "HI")
              [1; 2; 3; 4; 5]) as [H _].
  - unfold is_char, CHAR_MIN, CHAR_MAX. lia.
  - unfold is_char, CHAR_MIN, CHAR_MAX. lia.
  - lia.
  - unfold is_int, INT_MIN, INT_MAX. lia.
  - vm_compute. lia.
  - exact H.
Defined.

Lemma output_keeps_length (text rest body : list Z) :
  length body = strlen text ->
  Forall (fun c => c <> 0) body ->
  keeps_length text (Some (body ++ 0 :: rest)).
Proof.
  intros Hl Hnul. eexists. split; [reflexivity|].
  by rewrite strlen_app_nul.
Qed.

(** X2: over a valid range that does not contain NUL, the string that
    each of the four transforms returns has the length of its input. *)
Theorem transforms_keep_length (char_signed : bool)
    (range_low range_high caesar_key : Z) (key text buf : list Z) :
  is_char char_signed range_low -> is_char char_signed range_high ->
  range_low < range_high -> ~ (range_low <= 0 <= range_high) ->
  is_int caesar_key ->
  (strlen text < length buf)%nat ->
  keeps_length text
    (caesar_encrypt char_signed range_low range_high caesar_key text buf)
  /\ (caesar_key <> INT_MIN ->
      keeps_length text
        (caesar_decrypt char_signed range_low range_high caesar_key text buf))
  /\ (valid_keyword range_low range_high (cstring key) ->
      keeps_length text
        (vigenere_encrypt char_signed range_low range_high key text buf)
      /\ keeps_length text
           (vigenere_decrypt char_signed range_low range_high key text buf)).
Proof.
  intros Hlo Hhi Hr Hnul _ Hbuf.
  pose proof (cstring_no_nul text) as Hm.
  repeat apply conj.
  - rewrite caesar_encrypt_spec by done. apply output_keeps_length.
    + by rewrite shift_encrypt_length, cstring_length.
    + by apply shift_encrypt_not_nul.
  - intros Hmin. rewrite caesar_decrypt_spec by done.
    apply output_keeps_length; unfold shift_decrypt.
    + by rewrite shift_encrypt_length, cstring_length.
    + by apply shift_encrypt_not_nul.
  - intros Hkey. split.
    + rewrite vigenere_encrypt_spec by done.
      apply output_keeps_length; unfold poly_encrypt.
      * by rewrite poly_from_length, cstring_length.
      * by apply poly_not_nul.
    + rewrite vigenere_decrypt_spec by done.
      apply output_keeps_length; unfold poly_decrypt.
      * by rewrite poly_from_length, cstring_length.
      * by apply poly_not_nul.
Qed.

Lemma transforms_keep_length_witness :
  keeps_length (char_codes "Attack at DAWN")
    (caesar_encrypt false 65 90 (-7) (char_codes "Attack at DAWN")
       (replicate 20 1)).
Proof.
  destruct (transforms_keep_length false 65 90 (-7) []
              (char_codes "Attack at DAWN") (replicate 20 1)) as [H _].
  - unfold is_char, CHAR_MIN, CHAR_MAX. lia.
  - unfold is_char, CHAR_MIN, CHAR_MAX. lia.
  - lia.
  - lia.
  - unfold is_int, INT_MIN, INT_MAX. lia.
  - vm_compute. lia.
  - exact H.
Defined.

(** ** A destination that is too short *)

Lemma store_length (buf : list Z) (i : nat) (c : Z) (out : list Z) :
  store buf i c = Some out -> length out = length buf.
Proof.
  unfold store. destruct (decide (i < length buf)%nat); [|done].
  intros [= <-]. apply length_insert.
Qed.

Lemma store_outside (buf : list Z) (i : nat) (c : Z) :
  (length buf <= i)%nat -> store buf i c = None.
Proof. intros H. unfold store. by rewrite decide_False by lia. Qed.

Lemma caesar_encrypt_loop_length (char_signed : bool)
    (range_low range_high key range_size : Z) (plain_text : list Z) :
  forall (n i : nat) (cipher_text out : list Z),
    caesar_encrypt_loop char_signed range_low range_high key range_size
      plain_text n i cipher_text = Some out ->
    length out = length cipher_text.
Proof.
  induction n as [|n IH]; intros i cipher_text out; cbn [caesar_encrypt_loop].
  - by intros [= <-].
  - cbv zeta.
    destruct (if in_range range_low range_high (nth i plain_text 0)
              then r ← int_rem (nth i plain_text 0 - range_low + key)
                         range_size;
                   Some (to_char char_signed (range_low + Z.abs r))
              else Some (nth i plain_text 0)) as [c|]; [|done].
    cbn [mbind option_bind].
    destruct (store cipher_text i c) as [buf|] eqn:Hs; [|done].
    cbn [mbind option_bind]. intros Hl%IH.
    by rewrite Hl, (store_length _ _ _ _ Hs).
Qed.

Lemma caesar_encrypt_overflow (char_signed : bool)
    (range_low range_high key : Z) (plain_text cipher_text : list Z) :
  (length cipher_text <= strlen plain_text)%nat ->
  caesar_encrypt char_signed range_low range_high key plain_text cipher_text
  = None.
Proof.
  intros Hshort. unfold caesar_encrypt. cbv zeta.
  destruct (int_rem key (range_high - range_low + 1)) as [k|]; [|done].
  cbn [mbind option_bind].
  destruct (int_rem (k + (range_high - range_low + 1))
              (range_high - range_low + 1)) as [k'|]; [|done].
  cbn [mbind option_bind].
  destruct (caesar_encrypt_loop char_signed range_low range_high k'
              (range_high - range_low + 1) plain_text (strlen plain_text) O
              cipher_text) as [out|] eqn:Hloop; [|done].
  cbn [mbind option_bind]. apply store_outside.
  by rewrite (caesar_encrypt_loop_length _ _ _ _ _ _ _ _ _ _ Hloop).
Qed.

Lemma caesar_decrypt_overflow (char_signed : bool)
    (range_low range_high key : Z) (cipher_text plain_text : list Z) :
  (length plain_text <= strlen cipher_text)%nat ->
  caesar_decrypt char_signed range_low range_high key cipher_text plain_text
  = None.
Proof.
  intros Hshort. unfold caesar_decrypt.
  destruct (int_neg key); [|done]. cbn [mbind option_bind].
  by apply caesar_encrypt_overflow.
Qed.

Section VigenereOverflow.

Variable caesar : Z -> Z -> Z -> list Z -> list Z -> option (list Z).
Variables range_low range_high : Z.
Variables key plain_text : list Z.

Hypothesis caesar_overflow :
  forall (k : Z) (text buf : list Z),
    (length buf <= strlen text)%nat ->
    caesar range_low range_high k text buf = None.

Lemma vigenere_loop_short (key_length : nat) :
  forall (n i index : nat) (cipher_text : list Z) (index' : nat)
         (out : list Z),
    (i + n = strlen plain_text)%nat ->
    (length cipher_text <= strlen plain_text)%nat ->
    vigenere_loop caesar range_low range_high key key_length plain_text
      n i index cipher_text = Some (index', out) ->
    length out = length cipher_text.
Proof.
  induction n as [|n IH]; intros i index cipher_text index' out Hlen Hshort;
    cbn [vigenere_loop].
  - by intros [= _ <-].
  - unfold vigenere_step. cbv zeta.
    destruct (in_range range_low range_high (nth i plain_text 0)).
    + rewrite caesar_overflow; [done|].
      rewrite strlen_drop, length_drop by lia. lia.
    + destruct (store cipher_text i (nth i plain_text 0)) as [buf|] eqn:Hs;
        [|done].
      cbn [mbind option_bind]. intros Hloop.
      pose proof (store_length _ _ _ _ Hs) as Hl.
      rewrite <- Hl. apply (IH (S i) index buf index' out); [lia | lia | done].
Qed.

Lemma vigenere_overflow (cipher_text : list Z) :
  (length cipher_text <= strlen plain_text)%nat ->
  vigenere caesar range_low range_high key plain_text cipher_text = None.
Proof.
  intros Hshort. unfold vigenere. cbv zeta.
  destruct (vigenere_loop caesar range_low range_high key (strlen key)
              plain_text (strlen plain_text) O O cipher_text)
    as [[index out]|] eqn:Hloop; [|done].
  cbn [mbind option_bind]. apply store_outside.
  by rewrite (vigenere_loop_short (strlen key) (strlen plain_text) O O
                cipher_text index out eq_refl Hshort Hloop).
Qed.

End VigenereOverflow.

(** X3: a destination buffer without room for the text and its
    terminator makes each of the four transforms write past its end,
    whatever the range, the key and the text: none of them checks the
    size of the destination. *)
Theorem short_buffer_overflows (char_signed : bool)
    (range_low range_high caesar_key : Z) (key text buf : list Z) :
  (length buf <= strlen text)%nat ->
  caesar_encrypt char_signed range_low range_high caesar_key text buf = None
  /\ caesar_decrypt char_signed range_low range_high caesar_key text buf
     = None
  /\ vigenere_encrypt char_signed range_low range_high key text buf = None
  /\ vigenere_decrypt char_signed range_low range_high key text buf = None.
Proof.
  intros Hshort. repeat apply conj.
  - by apply caesar_encrypt_overflow.
  - by apply caesar_decrypt_overflow.
  - apply vigenere_overflow; [|done].
    intros k t b. apply caesar_encrypt_overflow.
  - apply vigenere_overflow; [|done].
    intros k t b. apply caesar_decrypt_overflow.
Qed.

Lemma short_buffer_overflows_witness :
  vigenere_encrypt true 65 90 (char_codes "KEY") (char_codes "HELLO")
    (replicate 5 0) = None.
Proof.
  destruct (short_buffer_overflows true 65 90 0 (char_codes "KEY")
              (char_codes "HELLO") (replicate 5 0)) as (_ & _ & H & _).
  - vm_compute. lia.
  - exact H.
Defined.

(** ** Keys that do nothing, keys that add up *)

Section ShiftAlgebra.

Variables range_low range_high : Z.
Hypothesis range_valid : range_low < range_high.

Local Abbreviation range_size := (range_high - range_low + 1).

Lemma shift_symbol_zero (key c : Z) :
  key mod range_size = 0 -> shift_symbol range_low range_high key c = c.
Proof.
  intros Hk. destruct (in_range range_low range_high c) eqn:Hc.
  - rewrite shift_symbol_in by done. rewrite Hk, Z.add_0_r.
    apply in_range_iff in Hc. rewrite Z.mod_small; lia.
  - by apply shift_symbol_out.
Qed.

Lemma shift_symbol_add (k1 k2 c : Z) :
  shift_symbol range_low range_high k2
    (shift_symbol range_low range_high k1 c)
  = shift_symbol range_low range_high (k1 + k2) c.
Proof.
  destruct (in_range range_low range_high c) eqn:Hc.
  - rewrite (shift_symbol_in range_low range_high range_valid k2)
      by (by rewrite shift_symbol_in_range).
    rewrite !shift_symbol_in by done. f_equal.
    replace (range_low + (c - range_low + k1 mod range_size) mod range_size
             - range_low)
      with ((c - range_low + k1 mod range_size) mod range_size) by lia.
    rewrite <- Zplus_mod, Zplus_mod_idemp_r.
    replace (c - range_low + k1 mod range_size + k2)
      with (c - range_low + k2 + k1 mod range_size) by lia.
    rewrite Zplus_mod_idemp_r. f_equal. lia.
  - rewrite (shift_symbol_out range_low range_high k1 c Hc).
    by rewrite !shift_symbol_out.
Qed.

Lemma shift_encrypt_zero (key : Z) (input : list Z) :
  key mod range_size = 0 ->
  shift_encrypt range_low range_high key input = input.
Proof.
  intros Hk. unfold shift_encrypt. rewrite <- (map_id input) at 2.
  apply map_ext. intros c. by apply shift_symbol_zero.
Qed.

Lemma shift_encrypt_add (k1 k2 : Z) (input : list Z) :
  shift_encrypt range_low range_high k2
    (shift_encrypt range_low range_high k1 input)
  = shift_encrypt range_low range_high (k1 + k2) input.
Proof.
  unfold shift_encrypt. rewrite map_map. apply map_ext.
  intros c. apply shift_symbol_add.
Qed.

Lemma shift_decrypt_inverse (key : Z) (input : list Z) :
  shift_encrypt range_low range_high key
    (shift_decrypt range_low range_high key input) = input.
Proof.
  unfold shift_decrypt. rewrite shift_encrypt_add.
  apply shift_encrypt_zero. by replace (- key + key) with 0 by lia.
Qed.

Lemma poly_symbol_inverse_rev (keyword : list Z) (k_idx : nat) (c : Z) :
  poly_symbol 1 range_low range_high keyword k_idx
    (poly_symbol (-1) range_low range_high keyword k_idx c) = c.
Proof.
  unfold poly_symbol at 1. rewrite poly_symbol_in_range by done.
  unfold poly_symbol. destruct (in_range range_low range_high c); [|done].
  cbv zeta. rewrite shift_symbol_add. apply shift_symbol_zero.
  by replace (-1 * (nth k_idx keyword 0 - range_low)
              + 1 * (nth k_idx keyword 0 - range_low)) with 0 by lia.
Qed.

Lemma poly_inverse_rev (keyword input : list Z) :
  forall k_idx : nat,
    poly_from 1 range_low range_high keyword k_idx
      (poly_from (-1) range_low range_high keyword k_idx input) = input.
Proof.
  induction input as [|c input IH]; intros k_idx; [reflexivity|].
  cbn [poly_from].
  by rewrite poly_symbol_inverse_rev, next_index_poly, IH.
Qed.

End ShiftAlgebra.

Lemma output_returns_string (body rest : list Z) :
  Forall (fun c => c <> 0) body ->
  returns_string body (Some (body ++ 0 :: rest)).
Proof.
  intros Hnul. eexists. split; [reflexivity|]. by apply cstring_app_nul.
Qed.

(** X4: over a valid range a key that is a multiple of the range size
    (0 among them) makes [caesar_encrypt], and [caesar_decrypt], return
    the message unchanged. *)
Theorem caesar_multiple_key_identity (char_signed : bool)
    (range_low range_high key : Z) (text buf : list Z) :
  is_char char_signed range_low -> is_char char_signed range_high ->
  range_low < range_high ->
  is_int key -> key mod (range_high - range_low + 1) = 0 ->
  (strlen text < length buf)%nat ->
  returns_string (cstring text)
    (caesar_encrypt char_signed range_low range_high key text buf)
  /\ (key <> INT_MIN ->
      returns_string (cstring text)
        (caesar_decrypt char_signed range_low range_high key text buf)).
Proof.
  intros Hlo Hhi Hr _ Hk Hbuf. split.
  - rewrite caesar_encrypt_spec by done.
    rewrite shift_encrypt_zero by done.
    apply output_returns_string, cstring_no_nul.
  - intros Hmin. rewrite caesar_decrypt_spec by done.
    unfold shift_decrypt.
    assert (Hneg : (- key) mod (range_high - range_low + 1) = 0)
      by (apply Z.mod_opp_l_z; [lia | done]).
    rewrite shift_encrypt_zero by done.
    apply output_returns_string, cstring_no_nul.
Qed.

Lemma caesar_multiple_key_identity_witness :
  returns_string (cstring (char_codes "HELLO, World"))
    (caesar_encrypt true 65 90 (-52) (char_codes "HELLO, World")
       (replicate 13 0)).
Proof.
  destruct (caesar_multiple_key_identity true 65 90 (-52)
              (char_codes "HELLO, World") (replicate 13 0)) as [H _].
  - unfold is_char, CHAR_MIN, CHAR_MAX. lia.
  - unfold is_char, CHAR_MIN, CHAR_MAX. lia.
  - lia.
  - unfold is_int, INT_MIN, INT_MAX. lia.
  - reflexivity.
  - vm_compute. lia.
  - exact H.
Defined.

(** X5: over a valid range without NUL, encrypting with [k1] and then
    encrypting the result with [k2] gives what one encryption with
    [k1 + k2] gives. *)
Theorem caesar_encrypt_twice (char_signed : bool)
    (range_low range_high k1 k2 : Z) (text buf1 buf2 : list Z) :
  is_char char_signed range_low -> is_char char_signed range_high ->
  range_low < range_high -> ~ (range_low <= 0 <= range_high) ->
  is_int k1 -> is_int k2 -> is_int (k1 + k2) ->
  (strlen text < length buf1)%nat -> (strlen text < length buf2)%nat ->
  exists first out : list Z,
    caesar_encrypt char_signed range_low range_high k1 text buf1 = Some first
    /\ caesar_encrypt char_signed range_low range_high k2 first buf2
       = Some out
    /\ caesar_encrypt char_signed range_low range_high (k1 + k2) text buf2
       = Some out.
Proof.
  intros Hlo Hhi Hr Hnul _ _ _ Hb1 Hb2.
  pose proof (cstring_no_nul text) as Hm.
  pose proof (shift_encrypt_not_nul range_low range_high Hr k1 _ Hnul Hm)
    as Hbody.
  set (body := shift_encrypt range_low range_high k1 (cstring text)) in *.
  assert (Hl : length body = strlen text)
    by (unfold body; by rewrite shift_encrypt_length, cstring_length).
  exists (body ++ 0 :: drop (S (strlen text)) buf1). eexists.
  split; [by apply caesar_encrypt_spec|].
  split; [|by apply caesar_encrypt_spec].
  rewrite caesar_encrypt_spec
    by (try done; by rewrite strlen_app_nul, Hl).
  rewrite (cstring_app_nul body), strlen_app_nul, Hl by done.
  unfold body. by rewrite shift_encrypt_add.
Qed.

Lemma caesar_encrypt_twice_witness :
  exists first out : list Z,
    caesar_encrypt true 65 90 20 (char_codes "ROT") (replicate 4 0)
    = Some first
    /\ caesar_encrypt true 65 90 19 first (replicate 4 0) = Some out
    /\ caesar_encrypt true 65 90 (20 + 19) (char_codes "ROT") (replicate 4 0)
       = Some out.
Proof.
  apply (caesar_encrypt_twice true 65 90 20 19).
  - unfold is_char, CHAR_MIN, CHAR_MAX. lia.
  - unfold is_char, CHAR_MIN, CHAR_MAX. lia.
  - lia.
  - lia.
  - unfold is_int, INT_MIN, INT_MAX. lia.
  - unfold is_int, INT_MIN, INT_MAX. lia.
  - unfold is_int, INT_MIN, INT_MAX. lia.
  - vm_compute. lia.
  - vm_compute. lia.
Defined.

(** ** Encryption undoes decryption *)

(** X6: over a valid range without NUL and for an [int] key other than
    [INT_MIN], [caesar_encrypt] applied with the same key to the output
    of [caesar_decrypt] returns the text that was decrypted. *)
Theorem caesar_encrypt_after_decrypt (char_signed : bool)
    (range_low range_high key : Z) (text buf1 buf2 : list Z) :
  is_char char_signed range_low -> is_char char_signed range_high ->
  range_low < range_high -> ~ (range_low <= 0 <= range_high) ->
  is_int key -> key <> INT_MIN ->
  (strlen text < length buf1)%nat -> (strlen text < length buf2)%nat ->
  exists decrypted encrypted : list Z,
    caesar_decrypt char_signed range_low range_high key text buf1
    = Some decrypted
    /\ caesar_encrypt char_signed range_low range_high key decrypted buf2
       = Some encrypted
    /\ cstring encrypted = cstring text.
Proof.
  intros Hlo Hhi Hr Hnul _ Hmin Hb1 Hb2.
  pose proof (cstring_no_nul text) as Hm.
  pose proof (shift_encrypt_not_nul range_low range_high Hr (- key) _ Hnul Hm)
    as Hbody.
  fold (shift_decrypt range_low range_high key (cstring text)) in Hbody.
  set (body := shift_decrypt range_low range_high key (cstring text)) in *.
  assert (Hl : length body = strlen text).
  { unfold body, shift_decrypt.
    by rewrite shift_encrypt_length, cstring_length. }
  exists (body ++ 0 :: drop (S (strlen text)) buf1). eexists.
  split; [by apply caesar_decrypt_spec|]. split.
  - apply caesar_encrypt_spec; try done. by rewrite strlen_app_nul, Hl.
  - rewrite (cstring_app_nul body) by done. unfold body.
    rewrite shift_decrypt_inverse by done. by apply cstring_app_nul.
Qed.

Lemma caesar_encrypt_after_decrypt_witness :
  exists decrypted encrypted : list Z,
    caesar_decrypt true 65 90 100 (char_codes "Some TEXT") (replicate 10 0)
    = Some decrypted
    /\ caesar_encrypt true 65 90 100 decrypted (replicate 10 0)
       = Some encrypted
    /\ cstring encrypted = cstring (char_codes "Some TEXT").
Proof.
  apply (caesar_encrypt_after_decrypt true 65 90 100).
  - unfold is_char, CHAR_MIN, CHAR_MAX. lia.
  - unfold is_char, CHAR_MIN, CHAR_MAX. lia.
  - lia.
  - lia.
  - unfold is_int, INT_MIN, INT_MAX. lia.
  - unfold INT_MIN. lia.
  - vm_compute. lia.
  - vm_compute. lia.
Defined.

(** X7: over a valid range without NUL and for a non-empty in-range
    keyword, [vigenere_encrypt] applied with the same keyword to the
    output of [vigenere_decrypt] returns the text that was decrypted. *)
Theorem vigenere_encrypt_after_decrypt (char_signed : bool)
    (range_low range_high : Z) (key text buf1 buf2 : list Z) :
  is_char char_signed range_low -> is_char char_signed range_high ->
  range_low < range_high -> ~ (range_low <= 0 <= range_high) ->
  valid_keyword range_low range_high (cstring key) ->
  (strlen text < length buf1)%nat -> (strlen text < length buf2)%nat ->
  exists decrypted encrypted : list Z,
    vigenere_decrypt char_signed range_low range_high key text buf1
    = Some decrypted
    /\ vigenere_encrypt char_signed range_low range_high key decrypted buf2
       = Some encrypted
    /\ cstring encrypted = cstring text.
Proof.
  intros Hlo Hhi Hr Hnul Hkey Hb1 Hb2.
  pose proof (cstring_no_nul text) as Hm.
  pose proof (poly_not_nul range_low range_high Hr (cstring key) (-1) _
                Hnul Hm O) as Hbody.
  fold (poly_decrypt range_low range_high (cstring key) (cstring text))
    in Hbody.
  set (body := poly_decrypt range_low range_high (cstring key)
                 (cstring text)) in *.
  assert (Hl : length body = strlen text).
  { unfold body, poly_decrypt. by rewrite poly_from_length, cstring_length. }
  exists (body ++ 0 :: drop (S (strlen text)) buf1). eexists.
  split; [by apply vigenere_decrypt_spec|]. split.
  - apply vigenere_encrypt_spec; try done. by rewrite strlen_app_nul, Hl.
  - rewrite (cstring_app_nul body) by done.
    unfold body, poly_decrypt, poly_encrypt.
    rewrite poly_inverse_rev by done. by apply cstring_app_nul.
Qed.

Lemma vigenere_encrypt_after_decrypt_witness :
  exists decrypted encrypted : list Z,
    vigenere_decrypt false 65 90 (char_codes "LEMON")
      (char_codes "Meet ME at NOON") (replicate 16 0) = Some decrypted
    /\ vigenere_encrypt false 65 90 (char_codes "LEMON") decrypted
         (replicate 16 0) = Some encrypted
    /\ cstring encrypted = cstring (char_codes "Meet ME at NOON").
Proof.
  apply (vigenere_encrypt_after_decrypt false 65 90).
  - unfold is_char, CHAR_MIN, CHAR_MAX. lia.
  - unfold is_char, CHAR_MIN, CHAR_MAX. lia.
  - lia.
  - lia.
  - split; [discriminate|]. vm_compute cstring.
    repeat constructor; lia.
  - vm_compute. lia.
  - vm_compute. lia.
Defined.

(** X8: over a valid range without NUL, two texts that [caesar_encrypt]
    (with one key) or [vigenere_encrypt] (with one valid keyword) turns
    into the same string are the same string: no two messages share a
    ciphertext. *)
Theorem encryption_injective (char_signed : bool)
    (range_low range_high caesar_key : Z)
    (key text1 text2 buf1 buf2 : list Z) :
  is_char char_signed range_low -> is_char char_signed range_high ->
  range_low < range_high -> ~ (range_low <= 0 <= range_high) ->
  is_int caesar_key ->
  (strlen text1 < length buf1)%nat -> (strlen text2 < length buf2)%nat ->
  (forall out1 out2 : list Z,
     caesar_encrypt char_signed range_low range_high caesar_key text1 buf1
     = Some out1 ->
     caesar_encrypt char_signed range_low range_high caesar_key text2 buf2
     = Some out2 ->
     cstring out1 = cstring out2 -> cstring text1 = cstring text2)
  /\ (valid_keyword range_low range_high (cstring key) ->
      forall out1 out2 : list Z,
        vigenere_encrypt char_signed range_low range_high key text1 buf1
        = Some out1 ->
        vigenere_encrypt char_signed range_low range_high key text2 buf2
        = Some out2 ->
        cstring out1 = cstring out2 -> cstring text1 = cstring text2).
Proof.
  intros Hlo Hhi Hr Hnul _ Hb1 Hb2.
  pose proof (cstring_no_nul text1) as Hm1.
  pose proof (cstring_no_nul text2) as Hm2.
  split.
  - intros out1 out2. rewrite !caesar_encrypt_spec by done.
    intros [= <-] [= <-].
    rewrite !cstring_app_nul by (by apply shift_encrypt_not_nul).
    intros Heq.
    apply (f_equal (shift_decrypt range_low range_high caesar_key)) in Heq.
    by rewrite !shift_encrypt_inverse in Heq.
  - intros Hkey out1 out2. rewrite !vigenere_encrypt_spec by done.
    intros [= <-] [= <-]. unfold poly_encrypt.
    rewrite !cstring_app_nul by (by apply poly_not_nul).
    intros Heq.
    apply (f_equal (poly_from (-1) range_low range_high (cstring key) O))
      in Heq.
    by rewrite !poly_inverse in Heq.
Qed.

Lemma encryption_injective_witness :
  caesar_encrypt true 65 90 3 (char_codes "ONE" ++ [0; 88]) (replicate 6 0)
  = Some [82; 81; 72; 0; 0; 0]
  /\ caesar_encrypt true 65 90 3 (char_codes "ONE") (replicate 4 0)
     = Some [82; 81; 72; 0]
  /\ cstring (char_codes "ONE" ++ [0; 88]) = cstring (char_codes "ONE").
Proof.
  split; [reflexivity|]. split; [reflexivity|].
  destruct (encryption_injective true 65 90 3 [] (char_codes "ONE" ++ [0; 88])
              (char_codes "ONE") (replicate 6 0) (replicate 4 0)) as [H _].
  - unfold is_char, CHAR_MIN, CHAR_MAX. lia.
  - unfold is_char, CHAR_MIN, CHAR_MAX. lia.
  - lia.
  - lia.
  - unfold is_int, INT_MIN, INT_MAX. lia.
  - vm_compute. lia.
  - vm_compute. lia.
  - apply (H [82; 81; 72; 0; 0; 0] [82; 81; 72; 0]); reflexivity.
Defined.

(** ** Keywords of one repeated symbol *)

Lemma poly_constant_keyword (sign range_low range_high k : Z)
    (keyword input : list Z) :
  Forall (fun c => c = k) keyword ->
  forall k_idx : nat,
    (k_idx < length keyword)%nat ->
    poly_from sign range_low range_high keyword k_idx input
    = shift_encrypt range_low range_high (sign * (k - range_low)) input.
Proof.
  intros Hall. induction input as [|c input IH]; intros k_idx Hidx;
    [reflexivity|].
  cbn [poly_from shift_encrypt map].
  fold (shift_encrypt range_low range_high (sign * (k - range_low)) input).
  rewrite IH by (by apply next_index_bound). f_equal.
  unfold poly_symbol, shift_symbol.
  destruct (in_range range_low range_high c); [|done]. cbv zeta.
  destruct (lookup_lt_is_Some_2 keyword k_idx Hidx) as [x Hx].
  rewrite (nth_lookup_Some _ _ 0 _ Hx).
  rewrite Forall_forall in Hall.
  by rewrite (Hall x) by (apply list_elem_of_lookup; by exists k_idx).
Qed.

(** X9: over a valid range, with a keyword that repeats one in-range
    symbol [k] (a one-symbol keyword among them), [vigenere_encrypt] does
    what [caesar_encrypt] does with the key [k - range_low], and
    [vigenere_decrypt] what [caesar_decrypt] does with it; when [k] is
    [range_low] both return the text unchanged. *)
Theorem vigenere_constant_keyword (char_signed : bool)
    (range_low range_high k : Z) (key text buf : list Z) :
  is_char char_signed range_low -> is_char char_signed range_high ->
  range_low < range_high ->
  cstring key <> [] -> Forall (fun c => c = k) (cstring key) ->
  range_low <= k <= range_high ->
  (strlen text < length buf)%nat ->
  (exists out : list Z,
     vigenere_encrypt char_signed range_low range_high key text buf
     = Some out
     /\ caesar_encrypt char_signed range_low range_high (k - range_low)
          text buf = Some out)
  /\ (exists out : list Z,
        vigenere_decrypt char_signed range_low range_high key text buf
        = Some out
        /\ caesar_decrypt char_signed range_low range_high (k - range_low)
             text buf = Some out)
  /\ (k = range_low ->
      returns_string (cstring text)
        (vigenere_encrypt char_signed range_low range_high key text buf)
      /\ returns_string (cstring text)
           (vigenere_decrypt char_signed range_low range_high key text buf)).
Proof.
  intros Hlo Hhi Hr Hne Hall Hk Hbuf.
  assert (Hkey : valid_keyword range_low range_high (cstring key)).
  { split; [done|]. eapply Forall_impl; [exact Hall|].
    intros c ->. exact Hk. }
  assert (Hpos : (0 < length (cstring key))%nat)
    by (destruct (cstring key); [done | simpl; lia]).
  assert (Hmin : k - range_low <> INT_MIN) by (unfold INT_MIN; lia).
  rewrite vigenere_encrypt_spec, vigenere_decrypt_spec by done.
  rewrite caesar_encrypt_spec, caesar_decrypt_spec by done.
  unfold poly_encrypt, poly_decrypt, shift_decrypt.
  rewrite !(poly_constant_keyword _ _ _ k) by done.
  rewrite Z.mul_1_l.
  replace (-1 * (k - range_low)) with (- (k - range_low)) by lia.
  repeat split.
  - eexists. by split.
  - eexists. by split.
  - subst k. rewrite shift_encrypt_zero
      by (try done; by rewrite Z.sub_diag).
    apply output_returns_string, cstring_no_nul.
  - subst k. rewrite shift_encrypt_zero
      by (try done; by rewrite Z.sub_diag).
    apply output_returns_string, cstring_no_nul.
Qed.

Lemma vigenere_constant_keyword_witness :
  exists out : list Z,
    vigenere_encrypt true 65 90 (char_codes "DDD") (char_codes "HELLO world")
      (replicate 12 0) = Some out
    /\ caesar_encrypt true 65 90 (68 - 65) (char_codes "HELLO world")
         (replicate 12 0) = Some out.
Proof.
  destruct (vigenere_constant_keyword true 65 90 68 (char_codes "DDD")
              (char_codes "HELLO world") (replicate 12 0)) as [H _].
  - unfold is_char, CHAR_MIN, CHAR_MAX. lia.
  - unfold is_char, CHAR_MIN, CHAR_MAX. lia.
  - lia.
  - discriminate.
  - vm_compute cstring. repeat constructor.
  - lia.
  - vm_compute. lia.
  - exact H.
Defined.

(** ** Which keyword symbol shifts which position *)

Lemma index_after_count (range_low range_high : Z) (n : nat)
    (input : list Z) :
  forall k_idx : nat,
    (k_idx < n)%nat ->
    index_after range_low range_high n k_idx input
    = ((k_idx + count_in_range range_low range_high input) mod n)%nat.
Proof.
  unfold count_in_range.
  induction input as [|c input IH]; intros k_idx Hk.
  - cbn [index_after List.filter length].
    by rewrite Nat.add_0_r, Nat.mod_small.
  - cbn [index_after List.filter]. rewrite IH by (by apply next_index_bound).
    unfold next_index. destruct (in_range range_low range_high c).
    + cbn [length]. rewrite Nat.Div0.add_mod_idemp_l. f_equal. lia.
    + reflexivity.
Qed.

Lemma nth_poly_index (sign range_low range_high : Z) (keyword : list Z)
    (input : list Z) :
  forall k_idx i : nat,
    (i < length input)%nat ->
    nth i (poly_from sign range_low range_high keyword k_idx input) 0
    = poly_symbol sign range_low range_high keyword
        (index_after range_low range_high (length keyword) k_idx
           (take i input))
        (nth i input 0).
Proof.
  induction input as [|c input IH]; intros k_idx i Hi; [simpl in Hi; lia|].
  destruct i as [|i]; [reflexivity|].
  cbn [poly_from nth]. rewrite firstn_cons. cbn [index_after].
  apply IH. simpl in Hi. lia.
Qed.

Lemma nth_poly_output (sign range_low range_high : Z)
    (key text rest : list Z) (i : nat) :
  cstring key <> [] ->
  Forall (fun c => range_low <= c <= range_high) (cstring key) ->
  (i < strlen text)%nat ->
  nth i (poly_from sign range_low range_high (cstring key) O (cstring text)
         ++ 0 :: rest) 0
  = if in_range range_low range_high (nth i text 0)
    then shift_symbol range_low range_high
           (sign * (nth (count_in_range range_low range_high (take i text)
                         mod strlen key) key 0 - range_low))
           (nth i text 0)
    else nth i text 0.
Proof.
  intros Hne Hall Hi.
  assert (Hpos : (0 < strlen key)%nat).
  { rewrite <- cstring_length. destruct (cstring key); [done | simpl; lia]. }
  rewrite nth_output by (by rewrite poly_from_length, cstring_length).
  rewrite nth_poly_index by (by rewrite cstring_length).
  rewrite nth_cstring by done. rewrite cstring_length.
  rewrite index_after_count by done. cbn [Nat.add].
  unfold cstring at 2. rewrite take_take, Nat.min_l by lia.
  unfold poly_symbol.
  destruct (in_range range_low range_high (nth i text 0)); [|done].
  cbv zeta. rewrite nth_cstring by (apply Nat.mod_upper_bound; lia).
  reflexivity.
Qed.

(** X10: over a valid range and with a non-empty in-range keyword, the
    symbol that [vigenere_encrypt] writes at position [i] is the symbol
    of the text there, shifted, when it is in the range, by
    [key[m mod key_length] - range_low] where [m] counts the in-range
    symbols before position [i]; [vigenere_decrypt] shifts by the
    opposite.  Out-of-range symbols use up no keyword symbol. *)
Theorem vigenere_closed_form (char_signed : bool) (range_low range_high : Z)
    (key text buf : list Z) :
  is_char char_signed range_low -> is_char char_signed range_high ->
  range_low < range_high ->
  valid_keyword range_low range_high (cstring key) ->
  (strlen text < length buf)%nat ->
  let offset (i : nat) :=
    nth (count_in_range range_low range_high (take i text) mod strlen key)
        key 0 - range_low in
  (exists out : list Z,
     vigenere_encrypt char_signed range_low range_high key text buf
     = Some out
     /\ forall i : nat,
          (i < strlen text)%nat ->
          nth i out 0
          = if in_range range_low range_high (nth i text 0)
            then shift_symbol range_low range_high (offset i) (nth i text 0)
            else nth i text 0)
  /\ (exists out : list Z,
        vigenere_decrypt char_signed range_low range_high key text buf
        = Some out
        /\ forall i : nat,
             (i < strlen text)%nat ->
             nth i out 0
             = if in_range range_low range_high (nth i text 0)
               then shift_symbol range_low range_high (- offset i)
                      (nth i text 0)
               else nth i text 0).
Proof.
  intros Hlo Hhi Hr Hkey Hbuf offset. pose proof Hkey as [Hne Hall]. split.
  - eexists. split; [by apply vigenere_encrypt_spec|].
    intros i Hi. unfold poly_encrypt. rewrite nth_poly_output by done.
    unfold offset. by rewrite Z.mul_1_l.
  - eexists. split; [by apply vigenere_decrypt_spec|].
    intros i Hi. unfold poly_decrypt. rewrite nth_poly_output by done.
    unfold offset.
    destruct (in_range range_low range_high (nth i text 0)); [|done].
    f_equal; lia.
Qed.

Lemma vigenere_closed_form_witness :
  exists out : list Z,
    vigenere_encrypt true 65 90 (char_codes "BC") (char_codes "A, A")
      (replicate 5 0) = Some out
    /\ nth 3 out 0 = 67.
Proof.
  destruct (vigenere_closed_form true 65 90 (char_codes "BC")
              (char_codes "A, A") (replicate 5 0))
    as [(out & Hrun & Hnth) _].
  - unfold is_char, CHAR_MIN, CHAR_MAX. lia.
  - unfold is_char, CHAR_MIN, CHAR_MAX. lia.
  - lia.
  - split; [discriminate|]. vm_compute cstring.
    repeat constructor; lia.
  - vm_compute. lia.
  - exists out. split; [exact Hrun|].
    rewrite (Hnth 3%nat) by (vm_compute; lia). reflexivity.
Defined.

(** ** Texts without in-range symbols, and the empty keyword *)

Section VigenereEdges.

Variable caesar : Z -> Z -> Z -> list Z -> list Z -> option (list Z).
Variables range_low range_high : Z.
Variables key plain_text : list Z.

Lemma vigenere_loop_copies (key_length : nat) :
  forall (n i index : nat) (cipher_text : list Z),
    (i + n <= strlen plain_text)%nat ->
    (i + n <= length cipher_text)%nat ->
    (forall j : nat, (i <= j < i + n)%nat ->
       in_range range_low range_high (nth j plain_text 0) = false) ->
    vigenere_loop caesar range_low range_high key key_length plain_text
      n i index cipher_text
    = Some (index, take i cipher_text ++ take n (drop i plain_text)
                   ++ drop (i + n) cipher_text).
Proof.
  induction n as [|n IH]; intros i index cipher_text Hlen Hbuf Hout.
  - cbn [vigenere_loop]. rewrite take_0, Nat.add_0_r. cbn [app].
    by rewrite take_drop.
  - cbn [vigenere_loop].
    rewrite vigenere_step_out by (try lia; apply Hout; lia).
    cbn [mbind option_bind].
    rewrite IH; [| lia | rewrite length_insert; lia
                 | intros j Hj; apply Hout; lia].
    destruct (strlen_lookup plain_text i) as [Hi _]; [lia|].
    rewrite (take_S_r _ _ (nth i plain_text 0))
      by (apply list_lookup_insert_eq; lia).
    rewrite take_insert_ge, drop_insert_lt by lia.
    rewrite (drop_S _ _ _ Hi), firstn_cons, <- app_assoc. cbn [app].
    by rewrite Nat.add_succ_r.
Qed.

Lemma vigenere_copies (cipher_text : list Z) :
  (strlen plain_text < length cipher_text)%nat ->
  (forall j : nat, (j < strlen plain_text)%nat ->
     in_range range_low range_high (nth j plain_text 0) = false) ->
  vigenere caesar range_low range_high key plain_text cipher_text
  = Some (cstring plain_text
          ++ 0 :: drop (S (strlen plain_text)) cipher_text).
Proof.
  intros Hbuf Hout. unfold vigenere. cbv zeta.
  rewrite vigenere_loop_copies;
    [| lia | lia | intros j Hj; apply Hout; lia].
  cbn [mbind option_bind Nat.add]. rewrite take_0, drop_0. cbn [app].
  fold (cstring plain_text). unfold store.
  rewrite decide_True
    by (rewrite length_app, cstring_length, length_drop; lia).
  f_equal. rewrite <- (cstring_length plain_text) at 1.
  rewrite insert_app_r_alt, Nat.sub_diag by lia. f_equal.
  destruct (drop (strlen plain_text) cipher_text) as [|x r] eqn:Hd.
  - apply (f_equal length) in Hd. rewrite length_drop in Hd. simpl in Hd. lia.
  - simpl. f_equal.
    replace (S (strlen plain_text)) with (strlen plain_text + 1)%nat by lia.
    rewrite <- drop_drop, Hd. reflexivity.
Qed.

(** With a key length of zero the loop does not get past the first
    in-range symbol. *)
Lemma vigenere_loop_no_key :
  forall (n i index : nat) (cipher_text : list Z),
    (exists j : nat, (i <= j < i + n)%nat
       /\ in_range range_low range_high (nth j plain_text 0) = true) ->
    vigenere_loop caesar range_low range_high key O plain_text
      n i index cipher_text = None.
Proof.
  induction n as [|n IH]; intros i index cipher_text (j & Hj & Hin);
    [lia|].
  cbn [vigenere_loop]. unfold vigenere_step. cbv zeta.
  destruct (in_range range_low range_high (nth i plain_text 0)) eqn:Hi.
  - by destruct (caesar range_low range_high (nth index key 0 - range_low)
                   (drop i plain_text) (drop i cipher_text)).
  - destruct (store cipher_text i (nth i plain_text 0)) as [buf|]; [|done].
    cbn [mbind option_bind]. apply IH. exists j. split; [|done].
    destruct (decide (j = i)) as [->|Hne]; [congruence | lia].
Qed.

Lemma vigenere_no_key (cipher_text : list Z) :
  strlen key = O ->
  (exists j : nat, (j < strlen plain_text)%nat
     /\ in_range range_low range_high (nth j plain_text 0) = true) ->
  vigenere caesar range_low range_high key plain_text cipher_text = None.
Proof.
  intros Hk (j & Hj & Hin). unfold vigenere. cbv zeta. rewrite Hk.
  rewrite vigenere_loop_no_key; [done|].
  exists j. split; [lia | done].
Qed.

End VigenereEdges.



(** X12: with an empty keyword, [vigenere_encrypt] and
    [vigenere_decrypt] divide by a key length of zero as soon as the text
    has an in-range symbol: neither checks that the keyword is not
    empty. *)
Theorem vigenere_empty_keyword_divides_by_zero (char_signed : bool)
    (range_low range_high : Z) (key text buf : list Z) :
  strlen key = O ->
  (exists j : nat, (j < strlen text)%nat
     /\ in_range range_low range_high (nth j text 0) = true) ->
  vigenere_encrypt char_signed range_low range_high key text buf = None
  /\ vigenere_decrypt char_signed range_low range_high key text buf = None.
Proof.
  intros Hk Hin. split; by apply vigenere_no_key.
Qed.

Lemma vigenere_empty_keyword_divides_by_zero_witness :
  vigenere_decrypt true 65 90 [0] (char_codes "abc D") (replicate 6 0) = None.
Proof.
  destruct (vigenere_empty_keyword_divides_by_zero true 65 90 [0]
              (char_codes "abc D") (replicate 6 0)) as [_ H].
  - reflexivity.
  - exists 4%nat. split; [vm_compute; lia | reflexivity].
  - exact H.
Defined.

(** ** The Caesar transform outside its range precondition *)

Lemma caesar_encrypt_loop_copies (char_signed : bool)
    (range_low range_high key range_size : Z) (plain_text : list Z) :
  forall (n i : nat) (cipher_text : list Z),
    (i + n <= strlen plain_text)%nat ->
    (i + n <= length cipher_text)%nat ->
    (forall j : nat, (i <= j < i + n)%nat ->
       in_range range_low range_high (nth j plain_text 0) = false) ->
    caesar_encrypt_loop char_signed range_low range_high key range_size
      plain_text n i cipher_text
    = Some (take i cipher_text ++ take n (drop i plain_text)
            ++ drop (i + n) cipher_text).
Proof.
  induction n as [|n IH]; intros i cipher_text Hlen Hbuf Hout.
  - cbn [caesar_encrypt_loop]. rewrite take_0, Nat.add_0_r. cbn [app].
    by rewrite take_drop.
  - cbn [caesar_encrypt_loop]. cbv zeta.
    rewrite (Hout i) by lia. cbn [mbind option_bind].
    unfold store. rewrite decide_True by lia. cbn [mbind option_bind].
    rewrite IH; [| lia | rewrite length_insert; lia
                 | intros j Hj; apply Hout; lia].
    destruct (strlen_lookup plain_text i) as [Hi _]; [lia|].
    rewrite (take_S_r _ _ (nth i plain_text 0))
      by (apply list_lookup_insert_eq; lia).
    rewrite take_insert_ge, drop_insert_lt by lia.
    rewrite (drop_S _ _ _ Hi), firstn_cons, <- app_assoc. cbn [app].
    by rewrite Nat.add_succ_r.
Qed.

Lemma int_rem_some (a b : Z) :
  b <> 0 -> ~ (a = INT_MIN /\ b = -1) -> int_rem a b = Some (Z.rem a b).
Proof.
  intros Hb Hov. unfold int_rem.
  destruct (Z.eqb_spec b 0); [done|].
  destruct (Z.eqb_spec a INT_MIN), (Z.eqb_spec b (-1)); try done.
  exfalso. by apply Hov.
Qed.

(** X13: [caesar_encrypt] divides by the range size before it looks at
    the text.  When that division is defined (the size is not 0, and not
    -1 with the key [INT_MIN]) a text without any in-range symbol is
    copied unchanged, also over a range that is not valid; when
    [range_high] is [range_low - 1] the size is 0 and the call is
    undefined on every text, the empty one included. *)
Theorem caesar_encrypt_range_edges (char_signed : bool)
    (range_low range_high key : Z) (text buf : list Z) :
  (range_high - range_low + 1 <> 0 ->
   ~ (key = INT_MIN /\ range_high - range_low + 1 = -1) ->
   (strlen text < length buf)%nat ->
   (forall j : nat, (j < strlen text)%nat ->
      in_range range_low range_high (nth j text 0) = false) ->
   caesar_encrypt char_signed range_low range_high key text buf
   = Some (cstring text ++ 0 :: drop (S (strlen text)) buf))
  /\ (range_high = range_low - 1 ->
      caesar_encrypt char_signed range_low range_high key text buf = None).
Proof.
  split.
  - intros Hsize Hov Hbuf Hout. unfold caesar_encrypt. cbv zeta.
    rewrite int_rem_some by done. cbn [mbind option_bind].
    rewrite int_rem_some; [|done|].
    2:{ intros [H1 H2]. rewrite H2 in H1.
        pose proof (Z.rem_bound_abs key (-1)). unfold INT_MIN in H1. lia. }
    cbn [mbind option_bind].
    rewrite caesar_encrypt_loop_copies;
      [| lia | lia | intros j Hj; apply Hout; lia].
    cbn [mbind option_bind Nat.add]. rewrite take_0, drop_0. cbn [app].
    fold (cstring text). unfold store.
    rewrite decide_True
      by (rewrite length_app, cstring_length, length_drop; lia).
    f_equal. rewrite <- (cstring_length text) at 1.
    rewrite insert_app_r_alt, Nat.sub_diag by lia. f_equal.
    destruct (drop (strlen text) buf) as [|x r] eqn:Hd.
    + apply (f_equal length) in Hd. rewrite length_drop in Hd.
      simpl in Hd. lia.
    + simpl. f_equal.
      replace (S (strlen text)) with (strlen text + 1)%nat by lia.
      rewrite <- drop_drop, Hd. reflexivity.
  - intros ->. unfold caesar_encrypt. cbv zeta.
    replace (range_low - 1 - range_low + 1) with 0 by lia.
    reflexivity.
Qed.

Lemma caesar_encrypt_range_edges_witness :
  caesar_encrypt true 90 65 7 (char_codes "HELLO") (replicate 6 0)
  = Some (cstring (char_codes "HELLO")
          ++ 0 :: drop (S (strlen (char_codes "HELLO"))) (replicate 6 0)).
Proof.
  destruct (caesar_encrypt_range_edges true 90 65 7 (char_codes "HELLO")
              (replicate 6 0)) as [H _].
  apply H.
  - lia.
  - lia.
  - vm_compute. lia.
  - intros j Hj. change (strlen (char_codes "HELLO")) with 5%nat in Hj.
    do 5 (destruct j as [|j]; [reflexivity|]). lia.
Defined.

(** ** Every run of the command line *)

Lemma range_no_nul : ~ (RANGE_LOW <= 0 <= RANGE_HIGH).
Proof. unfold RANGE_LOW, RANGE_HIGH. lia. Qed.

Lemma range_valid : RANGE_LOW < RANGE_HIGH.
Proof. unfold RANGE_LOW, RANGE_HIGH. lia. Qed.

Lemma cstring_no_nul_id (s : list Z) :
  Forall (fun c => c <> 0) s -> cstring s = s /\ strlen s = length s.
Proof.
  intros Hnul. assert (Hl : strlen s = length s).
  { induction Hnul as [|c s Hc _ IH]; simpl; [reflexivity|].
    destruct (Z.eqb_spec c 0); [done|]. by rewrite IH. }
  split; [|done]. unfold cstring. rewrite Hl. apply firstn_all.
Qed.

Lemma forallb_in_range_iff (range_low range_high : Z) (keyword : list Z) :
  forallb (in_range range_low range_high) keyword = true
  <-> Forall (fun c => range_low <= c <= range_high) keyword.
Proof.
  split; [|apply forallb_in_range_true].
  induction keyword as [|c keyword IH]; cbn [forallb]; [constructor|].
  intros [Hc Hrest]%andb_true_iff. constructor; [|by apply IH].
  unfold in_range in Hc. apply andb_true_iff in Hc as [H1 H2].
  apply Z.leb_le in H1, H2. lia.
Qed.

(** What [handle_caesar] prints for an accepted key. *)
Lemma handle_caesar_line (char_signed encrypt : bool)
    (operation key_str message buf : list Z) :
  cstring operation = caesar_operation encrypt ->
  decimal_token (cstring key_str) = true ->
  is_int (token_value (cstring key_str)) ->
  (strlen message < length buf)%nat ->
  let k := token_value (cstring key_str) mod 26 in
  handle_caesar char_signed operation key_str message buf
  = Some (0, [Call (if encrypt then CaesarEncrypt else CaesarDecrypt)
                RANGE_LOW RANGE_HIGH (inl k) message;
              Stdout (shift_encrypt RANGE_LOW RANGE_HIGH
                        (if encrypt then k else - k) (cstring message)
                      ++ [10])]).
Proof.
  intros Hop Htok Hint Hbuf k.
  destruct (handle_caesar_accepts char_signed encrypt operation key_str
              message buf Hop Htok Hint Hbuf) as (out & Hout & Hrun).
  fold k in Hout, Hrun.
  destruct (range_chars char_signed) as [Hlo Hhi].
  pose proof range_valid as Hr. pose proof range_no_nul as Hnul.
  pose proof (cstring_no_nul message) as Hm.
  assert (Hk : 0 <= k < 26) by (apply Z.mod_pos_bound; lia).
  rewrite Hrun. destruct encrypt.
  - rewrite caesar_encrypt_spec in Hout by done. injection Hout as <-.
    by rewrite cstring_app_nul by (by apply shift_encrypt_not_nul).
  - rewrite caesar_decrypt_spec in Hout by (try done; unfold INT_MIN; lia).
    injection Hout as <-. unfold shift_decrypt.
    by rewrite cstring_app_nul by (by apply shift_encrypt_not_nul).
Qed.

(** What [handle_vigenere] prints for a valid keyword. *)
Lemma handle_vigenere_line (char_signed encrypt : bool)
    (operation key_str message buf : list Z) :
  cstring operation = vigenere_operation encrypt ->
  valid_keyword RANGE_LOW RANGE_HIGH (cstring key_str) ->
  (strlen message < length buf)%nat ->
  handle_vigenere char_signed operation key_str message buf
  = Some (0, [Call (if encrypt then VigenereEncrypt else VigenereDecrypt)
                RANGE_LOW RANGE_HIGH (inr key_str) message;
              Stdout (poly_from (if encrypt then 1 else -1)
                        RANGE_LOW RANGE_HIGH (cstring key_str) O
                        (cstring message)
                      ++ [10])]).
Proof.
  intros Hop Hkey Hbuf. pose proof Hkey as [Hne Hall].
  destruct (range_chars char_signed) as [Hlo Hhi].
  pose proof range_valid as Hr. pose proof range_no_nul as Hnul.
  pose proof (cstring_no_nul message) as Hm.
  unfold handle_vigenere.
  rewrite validate_key_characters_spec, forallb_in_range_true by done.
  cbn [negb]. rewrite (strcmp_zero_known _ _ _ Hop).
  destruct encrypt.
  - rewrite vigenere_encrypt_spec by done. cbn [mbind option_bind].
    unfold poly_encrypt. rewrite cstring_app_nul by (by apply poly_not_nul).
    reflexivity.
  - rewrite vigenere_decrypt_spec by done. cbn [mbind option_bind].
    unfold poly_decrypt. rewrite cstring_app_nul by (by apply poly_not_nul).
    reflexivity.
Qed.

Lemma cli_unknown_operation (char_signed : bool)
    (program operation key_str message : list Z) :
  (forall encrypt, cstring operation <> vigenere_operation encrypt) ->
  (forall encrypt, cstring operation <> caesar_operation encrypt) ->
  cstring key_str <> [] ->
  (0 < strlen message < 1024)%nat ->
  cli char_signed 4 [program; operation; key_str; message]
  = Some (1, Stderr (char_codes "Invalid operation: " ++ cstring operation
                     ++ [10])
             :: print_usage program).
Proof.
  intros Hv Hc Hk [Hm0 Hm]. unfold cli. cbn [Z.eqb Pos.eqb negb nth].
  rewrite key_guard, message_guard by done. cbn [orb].
  destruct (Nat.leb_spec 1024 (strlen message)); [lia|].
  unfold strcmp_zero.
  rewrite !bool_decide_eq_false_2; [reflexivity | | | |].
  - apply (Hc false).
  - apply (Hc true).
  - apply (Hv false).
  - apply (Hv true).
Qed.

Lemma operations_differ (e1 e2 : bool) :
  vigenere_operation e1 <> caesar_operation e2.
Proof. by destruct e1, e2. Qed.

Lemma operation_named (name : bool -> list Z) (operation : list Z) :
  (exists e, cstring operation = name e)
  \/ ~ (exists e, cstring operation = name e).
Proof.
  destruct (decide (cstring operation = name true)) as [Ht|Ht];
    [left; eauto|].
  destruct (decide (cstring operation = name false)) as [Hf|Hf];
    [left; eauto|].
  right. intros [[] He]; done.
Qed.

Lemma succeeded_line (f : transform) (key : Z + list Z)
    (message line : list Z) :
  length line = strlen message ->
  succeeded message
    (Some (0, [Call f RANGE_LOW RANGE_HIGH key message;
               Stdout (line ++ [10])])).
Proof. intros Hl. by exists f, key, line. Qed.

Lemma rejected_not_zero (run : option (Z * list event)) (events : list event) :
  rejected run -> run <> Some (0, events).
Proof. intros (d & -> & _) [=]. Qed.

(** The run on four arguments succeeds when they are acceptable and is
    rejected when they are not. *)
Lemma cli_decides (char_signed : bool)
    (program operation key_str message : list Z) :
  let argv := [program; operation; key_str; message] in
  (acceptable 4 argv /\ succeeded message (cli char_signed 4 argv))
  \/ (~ acceptable 4 argv /\ rejected (cli char_signed 4 argv)).
Proof.
  intros argv. unfold argv, acceptable. cbn [nth].
  destruct (decide (0 < strlen message < 1024)%nat) as [Hm|Hm].
  2:{ right. split; [tauto | by apply cli_bad_message]. }
  destruct (decide (cstring key_str = [])) as [Hk|Hk].
  { right. split.
    - rewrite Hk. intros (_ & _ & [[_ [Hne _]]|[_ [Htok _]]]); done.
    - rewrite cli_empty_key by done. apply print_usage_rejected. }
  assert (Hbuf : (strlen message < length (replicate 1024 0))%nat)
    by (rewrite length_replicate; lia).
  destruct (operation_named vigenere_operation operation) as [[e He]|Hnv].
  { rewrite (cli_vigenere _ e) by done.
    destruct (forallb (in_range RANGE_LOW RANGE_HIGH) (cstring key_str))
      eqn:Hall.
    - apply forallb_in_range_iff in Hall. left.
      assert (Hkey : valid_keyword RANGE_LOW RANGE_HIGH (cstring key_str))
        by (by split).
      split; [split; [done | split; [done | left; eauto]]|].
      rewrite (handle_vigenere_line _ e) by done.
      apply succeeded_line. by rewrite poly_from_length, cstring_length.
    - right. split.
      + intros (_ & _ & [[_ [_ Hf]]|[[e' He'] _]]).
        * apply forallb_in_range_iff in Hf. congruence.
        * rewrite He in He'. by apply operations_differ in He'.
      + unfold handle_vigenere.
        rewrite validate_key_characters_spec, Hall.
        eexists. split; [reflexivity|]. by split. }
  destruct (operation_named caesar_operation operation) as [[e He]|Hnc].
  { rewrite (cli_caesar _ e) by done.
    destruct (decide (decimal_token (cstring key_str) = true
                      /\ is_int (token_value (cstring key_str))))
      as [[Htok Hint]|Hbad].
    - left. split; [split; [done | split; [done | right; eauto]]|].
      rewrite (handle_caesar_line _ e) by done.
      apply succeeded_line.
      by rewrite shift_encrypt_length, cstring_length.
    - right. split.
      + intros (_ & _ & [[[e' He'] _]|[_ Hok]]).
        * rewrite He in He'. symmetry in He'.
          by apply operations_differ in He'.
        * by apply Hbad.
      + rewrite handle_caesar_rejects by done.
        eexists. split; [reflexivity|]. by split. }
  right. split.
  - intros (_ & _ & [[Hv _]|[Hc _]]); [by apply Hnv | by apply Hnc].
  - rewrite cli_unknown_operation; try done.
    + eexists. split; [reflexivity|]. by split.
    + intros e He. apply Hnv. eauto.
    + intros e He. apply Hnc. eauto.
Qed.

Lemma four_arguments (argc : Z) (argv : list (list Z)) :
  argc = Z.of_nat (length argv) -> argc = 4 ->
  exists program operation key_str message : list Z,
    argv = [program; operation; key_str; message].
Proof.
  intros -> Hl.
  destruct argv as [|a [|b [|c [|d [|e argv]]]]]; simpl in Hl; try lia.
  by exists a, b, c, d.
Qed.

(** X14: whatever its arguments, a run of [cli] returns: it is either
    rejected (status 1, at least one line on the error stream, nothing
    on the output stream, no transform called) or it succeeds (status 0,
    one call of a transform over 'A'..'Z' on the message, one output line
    of the length of the message and a newline).  No run reaches
    undefined behaviour in a transform. *)
Theorem cli_outcome (char_signed : bool) (argc : Z) (argv : list (list Z)) :
  argc = Z.of_nat (length argv) ->
  rejected (cli char_signed argc argv)
  \/ succeeded (nth 3%nat argv []) (cli char_signed argc argv).
Proof.
  intros Hargc. destruct (Z.eqb_spec argc 4) as [H4|H4].
  - destruct (four_arguments argc argv Hargc H4)
      as (program & operation & key_str & message & ->).
    clear Hargc. subst argc. cbn [nth].
    destruct (cli_decides char_signed program operation key_str message)
      as [[_ H]|[_ H]]; [by right | by left].
  - left. unfold cli. destruct (Z.eqb_spec argc 4); [done|]. cbn [negb].
    apply print_usage_rejected.
Qed.

Lemma cli_outcome_witness :
  rejected (cli true 3 [char_codes "safecipher"; char_codes "caesar-encrypt";
                        char_codes "3"])
  \/ succeeded (nth 3%nat [char_codes "safecipher";
                           char_codes "caesar-encrypt"; char_codes "3"] [])
       (cli true 3 [char_codes "safecipher"; char_codes "caesar-encrypt";
                    char_codes "3"]).
Proof.
  apply (cli_outcome true 3).
  reflexivity.
Defined.

(** X15: [cli] returns status 0 exactly when it has four arguments, the
    message is not empty and shorter than 1024, and either the operation
    is a Vigenere one and the key is a non-empty string over 'A'..'Z', or
    the operation is a Caesar one and the key is a decimal token whose
    value is an [int]. *)
Theorem cli_success_iff (char_signed : bool) (argc : Z)
    (argv : list (list Z)) :
  argc = Z.of_nat (length argv) ->
  (exists events : list event, cli char_signed argc argv = Some (0, events))
  <-> acceptable argc argv.
Proof.
  intros Hargc. destruct (Z.eqb_spec argc 4) as [H4|H4].
  - destruct (four_arguments argc argv Hargc H4)
      as (program & operation & key_str & message & ->).
    clear Hargc. subst argc.
    destruct (cli_decides char_signed program operation key_str message)
      as [[Hacc Hrun]|[Hacc Hrun]].
    + split; [done|]. intros _.
      destruct Hrun as (f & key & line & -> & _). eauto.
    + split; [|done]. intros [events Hev].
      by apply (rejected_not_zero _ events) in Hrun.
  - split.
    + intros [events Hev]. unfold cli in Hev.
      destruct (Z.eqb_spec argc 4); [done|]. discriminate Hev.
    + intros [H _]. done.
Qed.

Lemma cli_success_iff_witness :
  (exists events : list event,
     cli false 4 [char_codes "safecipher"; char_codes "vigenere-decrypt";
                  char_codes "KEY"; char_codes "RIJVS"] = Some (0, events))
  <-> acceptable 4 [char_codes "safecipher"; char_codes "vigenere-decrypt";
                    char_codes "KEY"; char_codes "RIJVS"].
Proof.
  apply (cli_success_iff false 4).
  reflexivity.
Defined.

(** X16: for every accepted key string, the line that a caesar-encrypt
    run prints is turned back into the message by a caesar-decrypt run
    with the same key string; this holds for every [int] value of the
    key, [INT_MIN] included, since [handle_caesar] reduces the key to
    0..25 before the transform negates it. *)
Theorem cli_caesar_round_trip (char_signed : bool)
    (program1 program2 encrypt_op decrypt_op key_str message : list Z) :
  cstring encrypt_op = caesar_operation true ->
  cstring decrypt_op = caesar_operation false ->
  decimal_token (cstring key_str) = true ->
  is_int (token_value (cstring key_str)) ->
  (0 < strlen message < 1024)%nat ->
  exists line : list Z,
    cli char_signed 4 [program1; encrypt_op; key_str; message]
    = Some (0, [Call CaesarEncrypt RANGE_LOW RANGE_HIGH
                  (inl (token_value (cstring key_str) mod 26)) message;
                Stdout (line ++ [10])])
    /\ cli char_signed 4 [program2; decrypt_op; key_str; line]
       = Some (0, [Call CaesarDecrypt RANGE_LOW RANGE_HIGH
                     (inl (token_value (cstring key_str) mod 26)) line;
                   Stdout (cstring message ++ [10])]).
Proof.
  intros Henc Hdec Htok Hint Hmsg.
  assert (Hk : cstring key_str <> []).
  { intros Hk. rewrite Hk in Htok. discriminate Htok. }
  pose proof range_valid as Hr.
  set (k := token_value (cstring key_str) mod 26).
  set (line := shift_encrypt RANGE_LOW RANGE_HIGH k (cstring message)).
  assert (Hnul : Forall (fun c => c <> 0) line).
  { apply shift_encrypt_not_nul; [done | apply range_no_nul |].
    apply cstring_no_nul. }
  destruct (cstring_no_nul_id line Hnul) as [Hcs Hlen].
  assert (Hl : strlen line = strlen message).
  { rewrite Hlen. unfold line.
    by rewrite shift_encrypt_length, cstring_length. }
  exists line. split.
  - rewrite (cli_caesar _ true) by done.
    rewrite (handle_caesar_line _ true)
      by (try done; rewrite length_replicate; lia).
    reflexivity.
  - rewrite (cli_caesar _ false) by (try done; lia).
    rewrite (handle_caesar_line _ false)
      by (try done; rewrite length_replicate; lia).
    cbv zeta. fold k. rewrite Hcs. unfold line.
    fold (shift_decrypt RANGE_LOW RANGE_HIGH k
            (shift_encrypt RANGE_LOW RANGE_HIGH k (cstring message))).
    by rewrite shift_encrypt_inverse.
Qed.

Lemma cli_caesar_round_trip_witness :
  exists line : list Z,
    cli true 4 [char_codes "a"; char_codes "caesar-encrypt";
                char_codes "-2147483648"; char_codes "Hello, WORLD"]
    = Some (0, [Call CaesarEncrypt RANGE_LOW RANGE_HIGH
                  (inl (token_value (cstring (char_codes "-2147483648"))
                        mod 26)) (char_codes "Hello, WORLD");
                Stdout (line ++ [10])])
    /\ cli true 4 [char_codes "b"; char_codes "caesar-decrypt";
                   char_codes "-2147483648"; line]
       = Some (0, [Call CaesarDecrypt RANGE_LOW RANGE_HIGH
                     (inl (token_value (cstring (char_codes "-2147483648"))
                           mod 26)) line;
                   Stdout (cstring (char_codes "Hello, WORLD") ++ [10])]).
Proof.
  apply (cli_caesar_round_trip true).
  - reflexivity.
  - reflexivity.
  - reflexivity.
  - vm_compute. split; discriminate.
  - vm_compute. lia.
Defined.

(** X17: for every non-empty keyword over 'A'..'Z', the line that a
    vigenere-encrypt run prints is turned back into the message by a
    vigenere-decrypt run with the same keyword. *)
Theorem cli_vigenere_round_trip (char_signed : bool)
    (program1 program2 encrypt_op decrypt_op key_str message : list Z) :
  cstring encrypt_op = vigenere_operation true ->
  cstring decrypt_op = vigenere_operation false ->
  valid_keyword RANGE_LOW RANGE_HIGH (cstring key_str) ->
  (0 < strlen message < 1024)%nat ->
  exists line : list Z,
    cli char_signed 4 [program1; encrypt_op; key_str; message]
    = Some (0, [Call VigenereEncrypt RANGE_LOW RANGE_HIGH (inr key_str)
                  message;
                Stdout (line ++ [10])])
    /\ cli char_signed 4 [program2; decrypt_op; key_str; line]
       = Some (0, [Call VigenereDecrypt RANGE_LOW RANGE_HIGH (inr key_str)
                     line;
                   Stdout (cstring message ++ [10])]).
Proof.
  intros Henc Hdec Hkey Hmsg. pose proof Hkey as [Hk _].
  pose proof range_valid as Hr.
  set (line := poly_from 1 RANGE_LOW RANGE_HIGH (cstring key_str) O
                 (cstring message)).
  assert (Hnul : Forall (fun c => c <> 0) line).
  { apply poly_not_nul; [done | apply range_no_nul |].
    apply cstring_no_nul. }
  destruct (cstring_no_nul_id line Hnul) as [Hcs Hlen].
  assert (Hl : strlen line = strlen message).
  { rewrite Hlen. unfold line. by rewrite poly_from_length, cstring_length. }
  exists line. split.
  - rewrite (cli_vigenere _ true) by done.
    rewrite (handle_vigenere_line _ true)
      by (try done; rewrite length_replicate; lia).
    reflexivity.
  - rewrite (cli_vigenere _ false) by (try done; lia).
    rewrite (handle_vigenere_line _ false)
      by (try done; rewrite length_replicate; lia).
    rewrite Hcs. unfold line. by rewrite poly_inverse.
Qed.

Lemma cli_vigenere_round_trip_witness :
  exists line : list Z,
    cli true 4 [char_codes "a"; char_codes "vigenere-encrypt";
                char_codes "LEMON"; char_codes "Attack at DAWN!"]
    = Some (0, [Call VigenereEncrypt RANGE_LOW RANGE_HIGH
                  (inr (char_codes "LEMON")) (char_codes "Attack at DAWN!");
                Stdout (line ++ [10])])
    /\ cli true 4 [char_codes "b"; char_codes "vigenere-decrypt";
                   char_codes "LEMON"; line]
       = Some (0, [Call VigenereDecrypt RANGE_LOW RANGE_HIGH
                     (inr (char_codes "LEMON")) line;
                   Stdout (cstring (char_codes "Attack at DAWN!") ++ [10])]).
Proof.
  apply (cli_vigenere_round_trip true).
  - reflexivity.
  - reflexivity.
  - split; [discriminate|]. vm_compute cstring.
    repeat constructor; unfold RANGE_LOW, RANGE_HIGH; lia.
  - vm_compute. lia.
Defined.

(** ** The helpers of [cli] on their own *)

(** X18: [validate_key_characters] returns true exactly when every
    character before the terminator is in 'A'..'Z'; it looks at nothing
    after the terminator and accepts the empty string. *)
Theorem validate_key_characters_iff (str : list Z) :
  validate_key_characters str = true
  <-> Forall (fun c => RANGE_LOW <= c <= RANGE_HIGH) (cstring str).
Proof.
  rewrite validate_key_characters_spec. apply forallb_in_range_iff.
Qed.

Lemma strtol_empty (key_str : list Z) :
  cstring key_str = [] ->
  strtol key_str = (0, []) /\ contains_whitespace key_str = false.
Proof.
  intros Hk. split.
  - unfold strtol. by rewrite Hk.
  - by rewrite contains_whitespace_spec, Hk.
Qed.

(** X19: [handle_caesar] takes an empty key string for the key 0:
    [strtol] converts nothing and leaves [endptr] on the terminator, so
    the run has status 0 and prints the message unchanged.  Every
    operation other than "caesar-encrypt" is taken for a decryption. *)
Theorem handle_caesar_empty_key (char_signed : bool)
    (operation key_str message buf : list Z) :
  cstring key_str = [] ->
  (strlen message < length buf)%nat ->
  handle_caesar char_signed operation key_str message buf
  = Some (0, [Call (if strcmp_zero operation (char_codes "caesar-encrypt")
                    then CaesarEncrypt else CaesarDecrypt)
                RANGE_LOW RANGE_HIGH (inl 0) message;
              Stdout (cstring message ++ [10])]).
Proof.
  intros Hk Hbuf. destruct (strtol_empty key_str Hk) as [Hs Hsp].
  destruct (range_chars char_signed) as [Hlo Hhi].
  pose proof range_valid as Hr.
  pose proof (cstring_no_nul message) as Hm.
  unfold handle_caesar. rewrite Hs, Hsp. cbn [nth Z.eqb negb orb].
  cbv zeta. change (RANGE_HIGH - RANGE_LOW + 1) with 26.
  change (Z.rem (Z.rem 0 26 + 26) 26) with 0.
  destruct (strcmp_zero operation (char_codes "caesar-encrypt")).
  - rewrite caesar_encrypt_spec by done. cbn [mbind option_bind].
    rewrite shift_encrypt_zero by done.
    by rewrite cstring_app_nul.
  - rewrite caesar_decrypt_spec by (try done; unfold INT_MIN; lia).
    cbn [mbind option_bind]. unfold shift_decrypt.
    rewrite shift_encrypt_zero by done.
    by rewrite cstring_app_nul.
Qed.

Lemma handle_caesar_empty_key_witness :
  handle_caesar true (char_codes "caesar-decrypt") [0; 53]
    (char_codes "HELLO") (replicate 1024 0)
  = Some (0, [Call (if strcmp_zero (char_codes "caesar-decrypt")
                         (char_codes "caesar-encrypt")
                    then CaesarEncrypt else CaesarDecrypt)
                RANGE_LOW RANGE_HIGH (inl 0) (char_codes "HELLO");
              Stdout (cstring (char_codes "HELLO") ++ [10])]).
Proof.
  apply (handle_caesar_empty_key true).
  - reflexivity.
  - vm_compute. lia.
Defined.

(** X20: [handle_vigenere] lets an empty key string through, since
    [validate_key_characters] accepts it.  A message without capital
    letters is then printed unchanged; on any other message the
    transform divides by a key length of zero.  Only the guard of [cli]
    keeps an empty key away. *)
Theorem handle_vigenere_empty_key (char_signed : bool)
    (operation key_str message buf : list Z) :
  cstring key_str = [] ->
  ((forall j : nat, (j < strlen message)%nat ->
      in_range RANGE_LOW RANGE_HIGH (nth j message 0) = false) ->
   (strlen message < length buf)%nat ->
   handle_vigenere char_signed operation key_str message buf
   = Some (0, [Call (if strcmp_zero operation (char_codes "vigenere-encrypt")
                     then VigenereEncrypt else VigenereDecrypt)
                 RANGE_LOW RANGE_HIGH (inr key_str) message;
               Stdout (cstring message ++ [10])]))
  /\ ((exists j : nat, (j < strlen message)%nat
         /\ in_range RANGE_LOW RANGE_HIGH (nth j message 0) = true) ->
      handle_vigenere char_signed operation key_str message buf = None).
Proof.
  intros Hk.
  assert (Hlen : strlen key_str = O) by (by rewrite <- cstring_length, Hk).
  pose proof (cstring_no_nul message) as Hm.
  unfold handle_vigenere. rewrite validate_key_characters_spec, Hk.
  cbn [forallb negb]. unfold vigenere_encrypt, vigenere_decrypt. split.
  - intros Hout Hbuf.
    rewrite !vigenere_copies by done. cbn [mbind option_bind].
    rewrite cstring_app_nul by done.
    by destruct (strcmp_zero operation (char_codes "vigenere-encrypt")).
  - intros Hin. rewrite !vigenere_no_key by done.
    by destruct (strcmp_zero operation (char_codes "vigenere-encrypt")).
Qed.

Lemma handle_vigenere_empty_key_witness :
  handle_vigenere true (char_codes "vigenere-encrypt") [0]
    (char_codes "some Text") (replicate 1024 0) = None.
Proof.
  destruct (handle_vigenere_empty_key true (char_codes "vigenere-encrypt")
              [0] (char_codes "some Text") (replicate 1024 0)) as [_ H].
  - reflexivity.
  - apply H. exists 5%nat. split; [vm_compute; lia | reflexivity].
Defined.

(** ** Keyword symbols outside the range *)

Lemma shift_encrypt_congruent (range_low range_high k1 k2 : Z)
    (input : list Z) :
  range_low < range_high ->
  k1 mod (range_high - range_low + 1) = k2 mod (range_high - range_low + 1) ->
  shift_encrypt range_low range_high k1 input
  = shift_encrypt range_low range_high k2 input.
Proof.
  intros Hr Hk. unfold shift_encrypt. apply map_ext. intros c.
  destruct (in_range range_low range_high c) eqn:Hc.
  - rewrite !shift_symbol_in by done. by rewrite Hk.
  - by rewrite !shift_symbol_out.
Qed.

Lemma caesar_encrypt_congruent (char_signed : bool)
    (range_low range_high k1 k2 : Z) (text buf : list Z) :
  is_char char_signed range_low -> is_char char_signed range_high ->
  range_low < range_high ->
  k1 mod (range_high - range_low + 1) = k2 mod (range_high - range_low + 1) ->
  caesar_encrypt char_signed range_low range_high k1 text buf
  = caesar_encrypt char_signed range_low range_high k2 text buf.
Proof.
  intros Hlo Hhi Hr Hk.
  destruct (decide (strlen text < length buf)%nat) as [Hbuf|Hbuf].
  - rewrite !caesar_encrypt_spec by done.
    by rewrite (shift_encrypt_congruent _ _ k1 k2).
  - by rewrite !caesar_encrypt_overflow by lia.
Qed.

Lemma caesar_decrypt_congruent (char_signed : bool)
    (range_low range_high k1 k2 : Z) (text buf : list Z) :
  is_char char_signed range_low -> is_char char_signed range_high ->
  range_low < range_high ->
  k1 <> INT_MIN -> k2 <> INT_MIN ->
  k1 mod (range_high - range_low + 1) = k2 mod (range_high - range_low + 1) ->
  caesar_decrypt char_signed range_low range_high k1 text buf
  = caesar_decrypt char_signed range_low range_high k2 text buf.
Proof.
  intros Hlo Hhi Hr H1 H2 Hk. unfold caesar_decrypt.
  rewrite !int_neg_some by done. cbn [mbind option_bind].
  apply caesar_encrypt_congruent; try done.
  replace (- k1) with (-1 * k1) by lia.
  replace (- k2) with (-1 * k2) by lia.
  rewrite (Z.mul_mod (-1) k1), (Z.mul_mod (-1) k2) by lia.
  by rewrite Hk.
Qed.

Section VigenereCongruent.

Variable caesar : Z -> Z -> Z -> list Z -> list Z -> option (list Z).
Variables range_low range_high : Z.
Variables key1 key2 plain_text : list Z.
Variable key_length : nat.

Hypothesis caesar_same :
  forall (index : nat) (text buf : list Z),
    (index < key_length)%nat ->
    caesar range_low range_high (nth index key1 0 - range_low) text buf
    = caesar range_low range_high (nth index key2 0 - range_low) text buf.

Lemma vigenere_step_congruent (i index : nat) (cipher_text : list Z) :
  (index < key_length)%nat \/ key_length = O ->
  vigenere_step caesar range_low range_high key1 key_length plain_text
    i index cipher_text
  = vigenere_step caesar range_low range_high key2 key_length plain_text
      i index cipher_text.
Proof.
  intros [Hidx | ->]; unfold vigenere_step; cbv zeta;
    destruct (in_range range_low range_high (nth i plain_text 0));
    try reflexivity.
  - by rewrite caesar_same.
  - by destruct (caesar _ _ _ _ _), (caesar _ _ _ _ _).
Qed.

Lemma vigenere_loop_congruent :
  forall (n i index : nat) (cipher_text : list Z),
    (index < key_length)%nat \/ key_length = O ->
    vigenere_loop caesar range_low range_high key1 key_length plain_text
      n i index cipher_text
    = vigenere_loop caesar range_low range_high key2 key_length plain_text
        n i index cipher_text.
Proof.
  induction n as [|n IH]; intros i index cipher_text Hidx; [reflexivity|].
  cbn [vigenere_loop]. rewrite vigenere_step_congruent by done.
  destruct (vigenere_step caesar range_low range_high key2 key_length
              plain_text i index cipher_text) as [[index' buf]|] eqn:Hstep;
    [|reflexivity].
  cbn [mbind option_bind]. apply IH.
  destruct Hidx as [Hidx|Hzero]; [left | by right].
  unfold vigenere_step in Hstep. cbv zeta in Hstep.
  destruct (in_range range_low range_high (nth i plain_text 0)).
  - destruct (caesar _ _ _ _ _); [|done]. cbn [mbind option_bind] in Hstep.
    unfold size_rem in Hstep.
    destruct (Nat.eqb_spec key_length 0); [done|].
    injection Hstep as <- _. apply Nat.mod_upper_bound. lia.
  - destruct (store _ _ _); [|done]. by injection Hstep as <- _.
Qed.

End VigenereCongruent.

(** X21: the Vigenere transforms do not check the keyword.  Over a valid
    range, two keywords of the same length whose symbols differ position
    by position by multiples of the range size give the same result on
    every text, so a keyword symbol outside the range acts as the
    in-range symbol congruent to it: over 'A'..'Z' the keyword "a" is the
    keyword "G". *)
Theorem vigenere_keyword_congruent (char_signed : bool)
    (range_low range_high : Z) (key1 key2 text buf : list Z) :
  is_char char_signed range_low -> is_char char_signed range_high ->
  range_low < range_high ->
  strlen key1 = strlen key2 ->
  (forall index : nat, (index < strlen key1)%nat ->
     is_char char_signed (nth index key1 0)
     /\ is_char char_signed (nth index key2 0)
     /\ (nth index key1 0 - nth index key2 0)
        mod (range_high - range_low + 1) = 0) ->
  vigenere_encrypt char_signed range_low range_high key1 text buf
  = vigenere_encrypt char_signed range_low range_high key2 text buf
  /\ vigenere_decrypt char_signed range_low range_high key1 text buf
     = vigenere_decrypt char_signed range_low range_high key2 text buf.
Proof.
  intros Hlo Hhi Hr Hlen Hsym.
  assert (Hcong : forall index, (index < strlen key1)%nat ->
            (nth index key1 0 - range_low) mod (range_high - range_low + 1)
            = (nth index key2 0 - range_low) mod (range_high - range_low + 1)).
  { intros index Hidx. destruct (Hsym index Hidx) as (_ & _ & Hd).
    apply Z.mod_divide in Hd as [q Hq]; [|lia].
    replace (nth index key1 0 - range_low)
      with (nth index key2 0 - range_low + q * (range_high - range_low + 1))
      by lia.
    apply Z_mod_plus_full. }
  assert (Hidx0 : (0 < strlen key1)%nat \/ strlen key1 = O) by lia.
  unfold vigenere_encrypt, vigenere_decrypt, vigenere. cbv zeta.
  rewrite <- Hlen. split.
  - rewrite (vigenere_loop_congruent _ _ _ key1 key2); [done | | done].
    intros index t b Hidx. apply caesar_encrypt_congruent; try done.
    by apply Hcong.
  - rewrite (vigenere_loop_congruent _ _ _ key1 key2); [done | | done].
    intros index t b Hidx. destruct (Hsym index Hidx) as (H1 & H2 & _).
    apply caesar_decrypt_congruent; try done.
    + unfold is_char, CHAR_MIN, CHAR_MAX, INT_MIN in *.
      destruct char_signed; lia.
    + unfold is_char, CHAR_MIN, CHAR_MAX, INT_MIN in *.
      destruct char_signed; lia.
    + by apply Hcong.
Qed.

Lemma vigenere_keyword_congruent_witness :
  vigenere_encrypt true 65 90 (char_codes "a") (char_codes "HELLO")
    (replicate 6 0)
  = vigenere_encrypt true 65 90 (char_codes "G") (char_codes "HELLO")
      (replicate 6 0).
Proof.
  destruct (vigenere_keyword_congruent true 65 90 (char_codes "a")
              (char_codes "G") (char_codes "HELLO") (replicate 6 0))
    as [H _].
  - unfold is_char, CHAR_MIN, CHAR_MAX. lia.
  - unfold is_char, CHAR_MIN, CHAR_MAX. lia.
  - lia.
  - reflexivity.
  - intros index Hidx. change (strlen (char_codes "a")) with 1%nat in Hidx.
    destruct index as [|index]; [|lia].
    unfold is_char, CHAR_MIN, CHAR_MAX. vm_compute nth.
    repeat split; try lia.
  - exact H.
Defined.
